(** * MingwDownloader: a shallow embedding of [src/main.cpp]

    The program browses release metadata, filters the assets of a release by
    attributes encoded in their file names, downloads one asset with progress
    and cancellation, and unpacks the archive into a directory.

    The embedding follows the source function by function.  Globals of the
    program ([gFilters], [gReleases], [gCancel], the progress counters) are
    passed explicitly.  The libraries the program calls (std::string,
    nlohmann::json, std::filesystem, libarchive, libcurl) are modelled as far
    as the program observes them; each model says what it covers. *)

From Stdlib Require Import ZArith QArith String Ascii List Bool Lia Sorted.
From stdpp Require Import base list strings gmap.

Local Open Scope string_scope.
Local Open Scope Z_scope.

(** ** std::string searching *)

Module std.

(** [s.compare(0, t.size(), t) == 0]: the first [t.size()] characters of [s]
    are those of [t]. *)
Fixpoint starts_with (t s : string) : bool :=
  match t, s with
  | EmptyString, _ => true
  | String a t', String b s' => if Ascii.eqb a b then starts_with t' s' else false
  | String _ _, EmptyString => false
  end.

(** Positions are [size_t]; [npos] is [None]. *)
Fixpoint find_from (s tok : string) (i : nat) : option nat :=
  if starts_with tok s then Some i
  else match s with
       | EmptyString => None
       | String _ s' => find_from s' tok (S i)
       end.

(** [s.find(tok)]: the lowest position at which [tok] occurs in [s]. *)
Definition find (s tok : string) : option nat := find_from s tok 0.

Fixpoint rfind_from (s tok : string) (pos i : nat) (best : option nat) : option nat :=
  let best' := if (i <=? pos)%nat && starts_with tok s then Some i else best in
  match s with
  | EmptyString => best'
  | String _ s' => rfind_from s' tok pos (S i) best'
  end.

(** [s.rfind(tok, pos)]: the highest position not after [pos] at which [tok]
    occurs in [s]. *)
Definition rfind (s tok : string) (pos : nat) : option nat :=
  rfind_from s tok pos 0 None.

End std.

(** ** Data structures *)

Inductive Arch := Arch_Any | Arch_I686 | Arch_X86_64.
Inductive MRT := MRT_Any | MRT_Posix | MRT_Win32 | MRT_Mcf.
Inductive EXC := EXC_Any | EXC_Seh | EXC_Dwarf.
Inductive CRT := CRT_Any | CRT_Ucrt | CRT_Msvcrt.
Inductive RT := RT_Any | RT_V13.

Record AssetInfo := {
  arch : Arch;
  mrt : MRT;
  exc : EXC;
  crt : CRT;
  rt : RT
}.

(** [AssetInfo info{}]: the default member initialisers. *)
Definition AssetInfo_default : AssetInfo :=
  {| arch := Arch_Any; mrt := MRT_Any; exc := EXC_Any; crt := CRT_Any; rt := RT_Any |}.

Definition has_token (s tok : string) : bool :=
  match std.find s tok with
  | Some _ => true
  | None => false
  end.

Definition size_t_is (r : option nat) (n : nat) : bool :=
  match r with
  | Some i => Nat.eqb i n
  | None => false
  end.

Definition parse_asset_name (name : string) : AssetInfo :=
  {| arch :=
       if size_t_is (std.rfind name "i686-" 0) 0 then Arch_I686
       else if size_t_is (std.rfind name "x86_64-" 0) 0 then Arch_X86_64
       else Arch_Any;
     mrt :=
       if has_token name "-posix-" then MRT_Posix
       else if has_token name "-win32-" then MRT_Win32
       else if has_token name "-mcf-" then MRT_Mcf
       else MRT_Any;
     exc :=
       if has_token name "-seh-" then EXC_Seh
       else if has_token name "-dwarf-" then EXC_Dwarf
       else EXC_Any;
     crt :=
       if has_token name "-ucrt-" then CRT_Ucrt
       else if has_token name "-msvcrt-" then CRT_Msvcrt
       else CRT_Any;
     rt :=
       if has_token name "-rt_v13-" || has_token name "-rt_v13." then RT_V13
       else RT_Any |}.

(** The filter selection has the shape of [AssetInfo]. *)
Record Filters := {
  f_arch : Arch;
  f_mrt : MRT;
  f_exc : EXC;
  f_crt : CRT;
  f_rt : RT
}.

Definition Filters_default : Filters :=
  {| f_arch := Arch_Any; f_mrt := MRT_Any; f_exc := EXC_Any; f_crt := CRT_Any; f_rt := RT_Any |}.

Record Asset := {
  name : string;
  size : Z;
  url : string;
  info : AssetInfo
}.

Record Release := {
  tag : string;
  published_at : string;
  assets : list Asset
}.

(** ** Specification vocabulary for names *)

(** [name] begins with [p]. *)
Definition begins_with (p name : string) : Prop := exists rest, name = p +:+ rest.

(** [tok] occurs somewhere in [name]. *)
Definition occurs_in (tok name : string) : Prop :=
  exists pre post, name = pre +:+ tok +:+ post.

(** The token spellings [parse_asset_name] looks for. *)
Definition recognized_tokens : list string :=
  [ "-posix-"; "-win32-"; "-mcf-"; "-seh-"; "-dwarf-"; "-ucrt-"; "-msvcrt-";
    "-rt_v13-"; "-rt_v13." ].

(** ** nlohmann::json, as far as [parse_releases] uses it

    A [json] is a parsed document.  Objects are kept as association lists in
    key order; a parsed document has no duplicate keys, and lookup takes the
    first binding.  The binary and discarded kinds never come out of
    [json::parse] on text and are left out. *)

Set Warnings "-register-all".
Inductive json :=
| Jnull
| Jboolean (b : bool)
| Jnumber_integer (z : Z)
| Jnumber_unsigned (n : Z)
| Jnumber_float (q : Q)
| Jstring (s : string)
| Jarray (elems : list json)
| Jobject (members : list (string * json)).

(** The exceptions the library raises on the calls of [parse_releases]. *)
Inductive json_exception :=
| parse_error
| type_error_302   (* the stored value does not convert to the requested type *)
| type_error_306.  (* value() called on something that is not an object *)

(** A computation that returns or throws. *)
Inductive throws (A : Type) :=
| Returns (a : A)
| Throws (e : json_exception).
Arguments Returns {A} a.
Arguments Throws {A} e.

Definition bind_throws {A B} (m : throws A) (k : A -> throws B) : throws B :=
  match m with
  | Returns a => k a
  | Throws e => Throws e
  end.

Notation "'try!' x <- m ; k" := (bind_throws m (fun x => k))
  (at level 10, x name, m at level 100, k at level 200).

Module nlohmann.

Fixpoint find_member (members : list (string * json)) (key : string) : option json :=
  match members with
  | [] => None
  | (k, v) :: rest => if String.eqb k key then Some v else find_member rest key
  end.

(** [j.get<std::string>()] *)
Definition get_string (j : json) : throws string :=
  match j with
  | Jstring s => Returns s
  | _ => Throws type_error_302
  end.

(** Two's-complement reading of a 64-bit pattern as [long long]. *)
Definition to_int64 (n : Z) : Z :=
  let m := n mod 2 ^ 64 in
  if m <? 2 ^ 63 then m else m - 2 ^ 64.

(** [j.get<long long>()], with [long long] the library's integer type: the
    three number kinds convert by [static_cast], anything else throws.  A
    float is truncated toward zero (the cast is undefined when the result
    does not fit, which is not modelled). *)
Definition get_long_long (j : json) : throws Z :=
  match j with
  | Jnumber_integer z => Returns z
  | Jnumber_unsigned n => Returns (to_int64 n)
  | Jnumber_float q => Returns (Z.quot (Qnum q) (Zpos (Qden q)))
  | _ => Throws type_error_302
  end.

(** [j.value(key, default)] with a string default. *)
Definition value_string (j : json) (key default : string) : throws string :=
  match j with
  | Jobject members =>
      match find_member members key with
      | Some v => get_string v
      | None => Returns default
      end
  | _ => Throws type_error_306
  end.

(** [j.value(key, 0LL)] *)
Definition value_long_long (j : json) (key : string) (default : Z) : throws Z :=
  match j with
  | Jobject members =>
      match find_member members key with
      | Some v => get_long_long v
      | None => Returns default
      end
  | _ => Throws type_error_306
  end.

(** [j.contains(key)] *)
Definition contains (j : json) (key : string) : bool :=
  match j with
  | Jobject members =>
      match find_member members key with Some _ => true | None => false end
  | _ => false
  end.

(** [j[key]] on an object that has the key (the only use in the program). *)
Definition at_key (j : json) (key : string) : json :=
  match j with
  | Jobject members =>
      match find_member members key with Some v => v | None => Jnull end
  | _ => Jnull
  end.

Definition is_array (j : json) : bool :=
  match j with Jarray _ => true | _ => false end.

(** The elements a range-[for] over [j] visits: the elements of an array, the
    values of an object, nothing for null, and the value itself for any other
    kind. *)
Definition items (j : json) : list json :=
  match j with
  | Jarray elems => elems
  | Jobject members => map snd members
  | Jnull => []
  | _ => [j]
  end.

End nlohmann.

(** ** JSON parse *)

Definition string_empty (s : string) : bool :=
  match s with EmptyString => true | _ => false end.

(** Body of the inner loop of [parse_releases] up to the test on the name:
    the [Asset] built from one element of ["assets"]. *)
Definition asset_of_json (a : json) : throws Asset :=
  try! n <- nlohmann.value_string a "name" "";
  try! sz <- nlohmann.value_long_long a "size" 0;
  try! u <- nlohmann.value_string a "browser_download_url" "";
  Returns {| name := n; size := sz; url := u; info := parse_asset_name n |}.

(** The inner loop: [rel.assets.push_back] for every element with a name. *)
Fixpoint parse_assets (elems : list json) (acc : list Asset) : throws (list Asset) :=
  match elems with
  | [] => Returns acc
  | a :: rest =>
      try! asset <- asset_of_json a;
      parse_assets rest (if string_empty (name asset) then acc else acc ++ [asset])
  end.

(** Body of the outer loop up to the test on the tag: the [Release] built
    from one element of the document. *)
Definition release_of_json (r : json) : throws Release :=
  try! t <- nlohmann.value_string r "tag_name" "";
  try! p <- nlohmann.value_string r "published_at" "";
  try! l <- (if nlohmann.contains r "assets" && nlohmann.is_array (nlohmann.at_key r "assets")
             then parse_assets (nlohmann.items (nlohmann.at_key r "assets")) []
             else Returns []);
  Returns {| tag := t; published_at := p; assets := l |}.

(** The outer loop.  [gReleases] is pushed to as the loop goes; an exception
    leaves the loop with what was pushed so far, and the handler returns
    [false]. *)
Fixpoint parse_releases_loop (elems : list json) (gReleases : list Release)
  : bool * list Release :=
  match elems with
  | [] => (true, gReleases)
  | r :: rest =>
      match release_of_json r with
      | Throws _ => (false, gReleases)
      | Returns rel =>
          parse_releases_loop rest
            (if string_empty (tag rel) then gReleases else gReleases ++ [rel])
      end
  end.

(** [parse_releases] once [json::parse] has answered: [parsed] is the document,
    or the exception [json::parse] threw.  The second argument is [gReleases]
    on entry; the result is the returned flag with [gReleases] on exit. *)
Definition parse_releases_parsed (parsed : throws json) (gReleases : list Release)
  : bool * list Release :=
  let cleared : list Release := [] in
  match parsed with
  | Throws _ => (false, cleared)
  | Returns j => parse_releases_loop (nlohmann.items j) cleared
  end.

Section Decoder.

(** [json::parse] on text: a document or [parse_error]. *)
Variable json_parse : string -> throws json.

Definition parse_releases (data : string) (gReleases : list Release)
  : bool * list Release :=
  parse_releases_parsed (json_parse data) gReleases.

End Decoder.

(** ** Filtering *)

#[global] Instance Arch_eq_dec : EqDecision Arch.
Proof. solve_decision. Defined.
#[global] Instance MRT_eq_dec : EqDecision MRT.
Proof. solve_decision. Defined.
#[global] Instance EXC_eq_dec : EqDecision EXC.
Proof. solve_decision. Defined.
#[global] Instance CRT_eq_dec : EqDecision CRT.
Proof. solve_decision. Defined.
#[global] Instance RT_eq_dec : EqDecision RT.
Proof. solve_decision. Defined.

(** The enumerations [match_filter] is instantiated at: each has an [Any]. *)
Class WithAny (T : Type) := Any : T.
#[global] Instance Arch_any : WithAny Arch := Arch_Any.
#[global] Instance MRT_any : WithAny MRT := MRT_Any.
#[global] Instance EXC_any : WithAny EXC := EXC_Any.
#[global] Instance CRT_any : WithAny CRT := CRT_Any.
#[global] Instance RT_any : WithAny RT := RT_Any.

Definition match_filter {T} `{EqDecision T} `{WithAny T} (want got : T) : bool :=
  bool_decide (want = Any) || bool_decide (want = got).

Definition asset_matches (gFilters : Filters) (a : Asset) : bool :=
  match_filter (f_arch gFilters) (arch (info a))
  && match_filter (f_mrt gFilters) (mrt (info a))
  && match_filter (f_exc gFilters) (exc (info a))
  && match_filter (f_crt gFilters) (crt (info a))
  && match_filter (f_rt gFilters) (rt (info a)).

(** The two lists [rebuild_asset_list_for_release] fills: the rows of the
    browser [gAssets] and [gAssetIndexMap]. *)
Record asset_list := {
  gAssets : list string;
  gAssetIndexMap : list Z
}.

(** The loop over [rel.assets], from index [i] on. *)
Fixpoint rebuild_loop (gFilters : Filters) (rest : list Asset) (i : Z) (acc : asset_list)
  : asset_list :=
  match rest with
  | [] => acc
  | a :: rest' =>
      rebuild_loop gFilters rest' (i + 1)
        (if asset_matches gFilters a
         then {| gAssets := gAssets acc ++ [name a];
                 gAssetIndexMap := gAssetIndexMap acc ++ [i] |}
         else acc)
  end.

(** Sizes are compared as [int]; lists are taken to be shorter than 2^31. *)
Definition rebuild_asset_list_for_release
    (gReleases : list Release) (gFilters : Filters) (r_idx : Z) : asset_list :=
  let cleared := {| gAssets := []; gAssetIndexMap := [] |} in
  if (r_idx <? 0) || (r_idx >=? Z.of_nat (length gReleases)) then cleared
  else match gReleases !! Z.to_nat r_idx with
       | None => cleared
       | Some rel => rebuild_loop gFilters (assets rel) 0 cleared
       end.

(** ** std::filesystem::path, lexical operations

    Paths are kept as their native string in the POSIX pathname format of
    the standard: the only directory separator is the slash, there is no
    root name, and a path is absolute when it has a root directory.  The
    format of Windows is [win] further down, and [platform] states the
    extraction for either. *)

Module fs.

Definition slash : ascii := "/"%char.

(** The pieces between slashes, empty ones included: ["a//b/"] gives
    ["a"; ""; "b"; ""]. *)
Fixpoint pieces (s : string) : list string :=
  match s with
  | EmptyString => [EmptyString]
  | String c s' =>
      if Ascii.eqb c slash then EmptyString :: pieces s'
      else match pieces s' with
           | p :: ps => String c p :: ps
           | [] => [String c EmptyString]
           end
  end.

(** The last piece: [filename()]. *)
Definition filename (s : string) : string := List.last (pieces s) "".

Definition has_root_directory (s : string) : bool :=
  match s with
  | String c _ => Ascii.eqb c slash
  | EmptyString => false
  end.

Definition is_absolute (s : string) : bool := has_root_directory s.

Definition has_filename (s : string) : bool := negb (string_empty (filename s)).

(** [base / p] *)
Definition append (base p : string) : string :=
  if is_absolute p then p
  else if has_filename base then base +:+ "/" +:+ p
  else base +:+ p.

Definition is_dot (p : string) : bool := String.eqb p ".".
Definition is_dotdot (p : string) : bool := String.eqb p "..".

(** One filename of the normalisation, on the stack of filenames kept so far
    (last kept first): a dot is removed, a dot-dot removes the name before it,
    is removed itself right after the root directory, and is kept otherwise. *)
Definition normal_step (root : bool) (stack : list string) (p : string) : list string :=
  if string_empty p || is_dot p then stack
  else if is_dotdot p then
    match stack with
    | top :: below => if is_dotdot top then p :: stack else below
    | [] => if root then [] else [p]
    end
  else p :: stack.

Fixpoint join (names : list string) : string :=
  match names with
  | [] => ""
  | [n] => n
  | n :: rest => n +:+ "/" +:+ join rest
  end.

(** [p.lexically_normal()] *)
Definition lexically_normal (s : string) : string :=
  if string_empty s then ""
  else
    let root := has_root_directory s in
    let stack := fold_left (normal_step root) (pieces s) [] in
    let final := filename s in
    let trailing := string_empty final || is_dot final || is_dotdot final in
    match stack with
    | [] => if root then "/" else "."
    | top :: _ =>
        (if root then "/" else "") +:+ join (rev stack)
        +:+ (if trailing && negb (is_dotdot top) then "/" else "")
    end.

Fixpoint all_slashes (s : string) : bool :=
  match s with
  | EmptyString => true
  | String c s' => Ascii.eqb c slash && all_slashes s'
  end.

Definition has_relative_path (s : string) : bool := negb (all_slashes s).

Definition rev_string (s : string) : string :=
  string_of_list_ascii (rev (list_ascii_of_string s)).

Fixpoint drop_leading_slashes (s : string) : string :=
  match s with
  | String c s' => if Ascii.eqb c slash then drop_leading_slashes s' else s
  | EmptyString => EmptyString
  end.

Fixpoint drop_to_slash (s : string) : string :=
  match s with
  | String c s' => if Ascii.eqb c slash then s else drop_to_slash s'
  | EmptyString => EmptyString
  end.

(** [p.parent_path()]: the path up to the end of the component before the
    last one. *)
Definition parent_path (s : string) : string :=
  if has_relative_path s then
    let before_last := drop_to_slash (rev_string s) in
    let trimmed := drop_leading_slashes before_last in
    if string_empty trimmed && negb (string_empty before_last) then "/"
    else rev_string trimmed
  else s.

Fixpoint drop_to_dot (s : string) : option string :=
  match s with
  | String c s' => if Ascii.eqb c "."%char then Some s' else drop_to_dot s'
  | EmptyString => None
  end.

(** [p.stem()]: the filename without its last extension. *)
Definition stem (s : string) : string :=
  let f := filename s in
  if is_dot f || is_dotdot f then f
  else match drop_to_dot (rev_string f) with
       | Some before => if string_empty before then f else rev_string before
       | None => f
       end.

(** The filenames of the normal form: what the path names, directory by
    directory. *)
Definition components (s : string) : list string :=
  filter (fun p => negb (string_empty p || is_dot p) = true) (pieces (lexically_normal s)).

(** [p] names [root] or something below it. *)
Definition within (root p : string) : Prop := components root `prefix_of` components p.

End fs.

(** ** libarchive, as far as the program observes it

    An archive is what the reader answers when the program walks it: the
    entries whose header is read with [ARCHIVE_OK], then the answer that ends
    the walk.  Each entry carries the answers of the reader for its data and
    the answers of the disk writer for its header and its blocks. *)

(** The negative return codes. *)
Inductive archive_error := ARCHIVE_RETRY | ARCHIVE_WARN | ARCHIVE_FAILED | ARCHIVE_FATAL.

(** How a walk over headers or over data blocks ends: [ARCHIVE_EOF], or a
    code that is neither [ARCHIVE_OK] nor [ARCHIVE_EOF]. *)
Inductive read_end := ARCHIVE_EOF | read_failed (e : archive_error).

(** What a call of the disk writer answers: [ARCHIVE_OK] or an error code. *)
Inductive write_result := ARCHIVE_OK | write_failed (e : archive_error).

Record data_block := {
  buff : list Byte.byte;
  offset : Z;
  block_write : write_result   (* answer of archive_write_data_block *)
}.

Record archive_entry := {
  pathname : option string;    (* archive_entry_pathname; [None] is NULL *)
  blocks : list data_block;    (* the blocks archive_read_data_block yields *)
  data_end : read_end;         (* its answer after the last block *)
  header_write : write_result  (* answer of archive_write_header *)
}.

Record archive_file := {
  open_ok : bool;                  (* archive_read_open_filename == ARCHIVE_OK *)
  entries : list archive_entry;
  headers_end : read_end;          (* answer of archive_read_next_header after the last entry *)
  error_string : option string     (* archive_error_string(ar) after a failure *)
}.

(** Calls that reach the reader's data or the disk writer, in order. *)
Inductive archive_op :=
| read_data_skip
| write_header (path : string) (answer : write_result)
| write_data_block (data : list Byte.byte) (at_offset : Z) (answer : write_result)
| write_finish_entry.

(** ** Globals and what reaches the user interface *)

(** Every [Fl::awake(handler)] and every direct call on the progress bar, in
    order.  A post records the globals its handler reads, as they are when
    it is posted. *)
Inductive ui_event :=
| post_download_done (curl_result : Z)
| post_update_progress (value : Q)
| post_update_extract_progress (total done : Z)
| post_extract_done (ok : Z) (err : string)
| post_set_status (text : string)
| progress_value (v : Q).

Record globals := {
  gCancel : bool;
  gLastCurlResult : Z;
  gProgressValue : Q;
  gDoExtract : bool;
  gExtractOk : Z;
  gExtractErr : string;
  gExtractTotal : Z;
  gExtractDone : Z;
  gUiText : string;
  ui : list ui_event;              (* what was posted or shown so far *)
  archive_ops : list archive_op;   (* what was asked of libarchive so far *)
  files : gmap string (list Byte.byte)   (* regular files written through fopen *)
}.

Definition set_gCancel (v : bool) (g : globals) : globals :=
  {| gCancel := v; gLastCurlResult := gLastCurlResult g; gProgressValue := gProgressValue g;
     gDoExtract := gDoExtract g; gExtractOk := gExtractOk g; gExtractErr := gExtractErr g;
     gExtractTotal := gExtractTotal g; gExtractDone := gExtractDone g; gUiText := gUiText g;
     ui := ui g; archive_ops := archive_ops g; files := files g |}.

Definition set_gLastCurlResult (v : Z) (g : globals) : globals :=
  {| gCancel := gCancel g; gLastCurlResult := v; gProgressValue := gProgressValue g;
     gDoExtract := gDoExtract g; gExtractOk := gExtractOk g; gExtractErr := gExtractErr g;
     gExtractTotal := gExtractTotal g; gExtractDone := gExtractDone g; gUiText := gUiText g;
     ui := ui g; archive_ops := archive_ops g; files := files g |}.

Definition set_gProgressValue (v : Q) (g : globals) : globals :=
  {| gCancel := gCancel g; gLastCurlResult := gLastCurlResult g; gProgressValue := v;
     gDoExtract := gDoExtract g; gExtractOk := gExtractOk g; gExtractErr := gExtractErr g;
     gExtractTotal := gExtractTotal g; gExtractDone := gExtractDone g; gUiText := gUiText g;
     ui := ui g; archive_ops := archive_ops g; files := files g |}.

Definition set_gExtractOk (v : Z) (g : globals) : globals :=
  {| gCancel := gCancel g; gLastCurlResult := gLastCurlResult g; gProgressValue := gProgressValue g;
     gDoExtract := gDoExtract g; gExtractOk := v; gExtractErr := gExtractErr g;
     gExtractTotal := gExtractTotal g; gExtractDone := gExtractDone g; gUiText := gUiText g;
     ui := ui g; archive_ops := archive_ops g; files := files g |}.

Definition set_gExtractErr (v : string) (g : globals) : globals :=
  {| gCancel := gCancel g; gLastCurlResult := gLastCurlResult g; gProgressValue := gProgressValue g;
     gDoExtract := gDoExtract g; gExtractOk := gExtractOk g; gExtractErr := v;
     gExtractTotal := gExtractTotal g; gExtractDone := gExtractDone g; gUiText := gUiText g;
     ui := ui g; archive_ops := archive_ops g; files := files g |}.

Definition set_gExtractTotal (v : Z) (g : globals) : globals :=
  {| gCancel := gCancel g; gLastCurlResult := gLastCurlResult g; gProgressValue := gProgressValue g;
     gDoExtract := gDoExtract g; gExtractOk := gExtractOk g; gExtractErr := gExtractErr g;
     gExtractTotal := v; gExtractDone := gExtractDone g; gUiText := gUiText g;
     ui := ui g; archive_ops := archive_ops g; files := files g |}.

Definition set_gExtractDone (v : Z) (g : globals) : globals :=
  {| gCancel := gCancel g; gLastCurlResult := gLastCurlResult g; gProgressValue := gProgressValue g;
     gDoExtract := gDoExtract g; gExtractOk := gExtractOk g; gExtractErr := gExtractErr g;
     gExtractTotal := gExtractTotal g; gExtractDone := v; gUiText := gUiText g;
     ui := ui g; archive_ops := archive_ops g; files := files g |}.

Definition set_gUiText (v : string) (g : globals) : globals :=
  {| gCancel := gCancel g; gLastCurlResult := gLastCurlResult g; gProgressValue := gProgressValue g;
     gDoExtract := gDoExtract g; gExtractOk := gExtractOk g; gExtractErr := gExtractErr g;
     gExtractTotal := gExtractTotal g; gExtractDone := gExtractDone g; gUiText := v;
     ui := ui g; archive_ops := archive_ops g; files := files g |}.

Definition emit (e : ui_event) (g : globals) : globals :=
  {| gCancel := gCancel g; gLastCurlResult := gLastCurlResult g; gProgressValue := gProgressValue g;
     gDoExtract := gDoExtract g; gExtractOk := gExtractOk g; gExtractErr := gExtractErr g;
     gExtractTotal := gExtractTotal g; gExtractDone := gExtractDone g; gUiText := gUiText g;
     ui := ui g ++ [e]; archive_ops := archive_ops g; files := files g |}.

Definition archive_call (op : archive_op) (g : globals) : globals :=
  {| gCancel := gCancel g; gLastCurlResult := gLastCurlResult g; gProgressValue := gProgressValue g;
     gDoExtract := gDoExtract g; gExtractOk := gExtractOk g; gExtractErr := gExtractErr g;
     gExtractTotal := gExtractTotal g; gExtractDone := gExtractDone g; gUiText := gUiText g;
     ui := ui g; archive_ops := archive_ops g ++ [op]; files := files g |}.

Definition set_files (v : gmap string (list Byte.byte)) (g : globals) : globals :=
  {| gCancel := gCancel g; gLastCurlResult := gLastCurlResult g; gProgressValue := gProgressValue g;
     gDoExtract := gDoExtract g; gExtractOk := gExtractOk g; gExtractErr := gExtractErr g;
     gExtractTotal := gExtractTotal g; gExtractDone := gExtractDone g; gUiText := gUiText g;
     ui := ui g; archive_ops := archive_ops g; files := v |}.

(** [Fl::awake(awake_update_extract_progress)] *)
Definition post_extract_progress (g : globals) : globals :=
  emit (post_update_extract_progress (gExtractTotal g) (gExtractDone g)) g.

(** What [awake_update_extract_progress] puts on the progress bar for the
    globals of a post: the exact quotient whose rounding the program shows. *)
Definition awake_update_extract_progress (total done : Z) : Q :=
  if total <=? 0 then 0%Q
  else (inject_Z done / inject_Z total * 100)%Q.

(** The status line [awake_download_done] sets. *)
Definition awake_download_done (curl_result : Z) : string :=
  if curl_result =? 0 then "Download complete." else "Download failed or cancelled.".

(** ** Counting pass *)

(** What the process finds around an extraction. *)
Record extract_env := {
  read_new_ok : bool;                       (* archive_read_new returns a handle *)
  write_disk_new_ok : bool;                 (* archive_write_disk_new returns a handle *)
  create_directories_error : option string  (* what() of the exception, if it throws *)
}.

Definition archive_error_or (ar : archive_file) (fallback : string) : string :=
  match error_string ar with
  | Some s => s
  | None => fallback
  end.

(** The result is the returned [int] and [err] on exit. *)
Definition count_archive_entries (env : extract_env) (ar : archive_file) (err : string)
  : Z * string :=
  if negb (read_new_ok env) then (-1, "libarchive init failed")
  else if negb (open_ok ar) then (-1, archive_error_or ar "open archive failed")
  else
    let count := fold_left (fun count (_ : archive_entry) => count + 1) (entries ar) 0 in
    match headers_end ar with
    | ARCHIVE_EOF => (count, err)
    | read_failed _ => (-1, archive_error_or ar "count header failed")
    end.

(** ** Extraction *)

(** The return code of [copy_archive_data]: [ARCHIVE_OK] at the end of the
    data, else the first answer that is not [ARCHIVE_OK]. *)
Fixpoint copy_archive_data (bs : list data_block) (last : read_end) (g : globals)
  : write_result * globals :=
  match bs with
  | [] =>
      match last with
      | ARCHIVE_EOF => (ARCHIVE_OK, g)
      | read_failed e => (write_failed e, g)
      end
  | b :: rest =>
      let g' := archive_call (write_data_block (buff b) (offset b) (block_write b)) g in
      match block_write b with
      | ARCHIVE_OK => copy_archive_data rest last g'
      | write_failed e => (write_failed e, g')
      end
  end.

(** [safe_join] returns the joined path or throws [std::runtime_error]; the
    error carries its message. *)
Definition safe_join (base rel : string) : string + string :=
  let out := fs.lexically_normal (fs.append base rel) in
  let baseN := fs.lexically_normal base in
  let baseStr := baseN in
  let outStr := out in
  if (String.length outStr <? String.length baseStr)%nat
     || negb (std.starts_with baseStr outStr)
  then inr "Blocked path traversal in archive entry"
  else inl out.

(** How the loop over headers is left. *)
Inductive loop_exit :=
| headers_exhausted              (* archive_read_next_header answered other than ARCHIVE_OK *)
| returned_false (err : string)  (* the [return false] inside the loop *)
| threw (what : string).         (* an exception on its way to the handler *)

(** The [while] loop of [extract_archive_to_dir] over the entries still to
    read, with the local [doneCount]. *)
Fixpoint extract_entries (base : string) (ar : archive_file) (rest : list archive_entry)
    (doneCount : Z) (g : globals) : loop_exit * globals :=
  match rest with
  | [] => (headers_exhausted, g)
  | entry :: rest' =>
      match pathname entry with
      | None => extract_entries base ar rest' doneCount (archive_call read_data_skip g)
      | Some p =>
          if string_empty p then
            extract_entries base ar rest' doneCount (archive_call read_data_skip g)
          else if fs.is_absolute p then
            extract_entries base ar rest' doneCount (archive_call read_data_skip g)
          else
            match safe_join base p with
            | inr what => (threw what, g)
            | inl full =>
                let g1 := archive_call (write_header full (header_write entry)) g in
                let finish_entry := fun g2 =>
                  let g3 := archive_call write_finish_entry g2 in
                  let doneCount' := doneCount + 1 in
                  extract_entries base ar rest' doneCount'
                    (post_extract_progress (set_gExtractDone doneCount' g3)) in
                match header_write entry with
                | ARCHIVE_OK =>
                    match copy_archive_data (blocks entry) (data_end entry) g1 with
                    | (write_failed _, g2) =>
                        (returned_false (archive_error_or ar "extract data failed"), g2)
                    | (ARCHIVE_OK, g2) => finish_entry g2
                    end
                | write_failed _ =>
                    (* header write failed; skip data to continue *)
                    finish_entry (archive_call read_data_skip g1)
                end
            end
      end
  end.

(** The result is the returned flag, [err] on exit, and the globals. *)
Definition extract_archive_to_dir (env : extract_env) (ar : archive_file)
    (outDir : string) (err : string) (g : globals) : bool * string * globals :=
  let g0 := post_extract_progress (set_gExtractDone 0 g) in
  let base := outDir in
  match create_directories_error env with
  | Some what => (false, what, g0)
  | None =>
      if negb (read_new_ok env) || negb (write_disk_new_ok env)
      then (false, "libarchive init failed", g0)
      else if negb (open_ok ar)
      then (false, archive_error_or ar "open archive failed", g0)
      else
        match extract_entries base ar (entries ar) 0 g0 with
        | (threw what, g') => (false, what, g')
        | (returned_false e, g') => (false, e, g')
        | (headers_exhausted, g') =>
            match headers_end ar with
            | ARCHIVE_EOF => (true, err, g')
            | read_failed _ => (false, archive_error_or ar "read header failed", g')
            end
        end
  end.

(** ** Download with progress

    A transfer is what libcurl does between the call of [curl_easy_perform]
    and its return, as the program sees it: body bytes handed to the write
    callback, progress ticks on which the transfer-info callback runs, and
    the end of the transfer.  The store of [on_cancel] to the atomic
    [gCancel], made by the consumer while the transfer runs, takes its place
    in that order. *)

Inductive curl_event :=
| ev_data (chunk : list Byte.byte) (stored : nat)
    (* bytes for the write callback; fwrite stores the first [stored] *)
| ev_progress (total now : Z)    (* a progress tick *)
| ev_cancel                      (* the store gCancel = true becomes visible *)
| ev_fail (code : positive).     (* the transfer fails with this CURLcode *)

Definition CURLE_OK : Z := 0.
Definition CURLE_FAILED_INIT : Z := 2.
Definition CURLE_WRITE_ERROR : Z := 23.
Definition CURLE_ABORTED_BY_CALLBACK : Z := 42.

(** The returned [int] with the globals. *)
Definition progress_callback (total now : Z) (g : globals) : Z * globals :=
  if gCancel g then (1, g)
  else if 0 <? total then
    let g' := set_gProgressValue (inject_Z now / inject_Z total * 100)%Q g in
    (0, emit (post_update_progress (gProgressValue g')) g')
  else (0, g).

(** [fwrite] on the stream opened at [path]. *)
Definition fwrite (path : string) (bytes : list Byte.byte) (g : globals) : globals :=
  set_files (<[path := (default [] (files g !! path) ++ bytes)%list]> (files g)) g.

(** [curl_easy_perform] with [file_write_cb] writing to the stream opened at
    [path] and [progress_callback] as transfer-info callback.  A write
    callback that stores less than it was given ends the transfer with
    [CURLE_WRITE_ERROR], a transfer-info callback that returns non-zero with
    [CURLE_ABORTED_BY_CALLBACK]. *)
Fixpoint curl_easy_perform (path : string) (events : list curl_event) (g : globals)
  : Z * globals :=
  match events with
  | [] => (CURLE_OK, g)
  | ev_data chunk stored :: rest =>
      let g' := fwrite path (take stored chunk) g in
      if (stored <? length chunk)%nat then (CURLE_WRITE_ERROR, g')
      else curl_easy_perform path rest g'
  | ev_progress total now :: rest =>
      match progress_callback total now g with
      | (0, g') => curl_easy_perform path rest g'
      | (_, g') => (CURLE_ABORTED_BY_CALLBACK, g')
      end
  | ev_cancel :: rest => curl_easy_perform path rest (set_gCancel true g)
  | ev_fail code :: _ => (Zpos code, g)
  end.

(** What the process finds around a download. *)
Record download_env := {
  curl_init_ok : bool;         (* curl_easy_init returns a handle *)
  fopen_ok : bool;             (* fopen(outPath, "wb") returns a stream *)
  transfer : list curl_event;
  extraction : extract_env;
  archive : archive_file       (* what libarchive reads in the downloaded file *)
}.

Definition post_status (s : string) (g : globals) : globals :=
  let g' := set_gUiText s g in
  emit (post_set_status (gUiText g')) g'.

Definition post_download_done_now (g : globals) : globals :=
  emit (post_download_done (gLastCurlResult g)) g.

(** The optional extraction at the end of [download_file]: count, then
    extract into the directory named after the file without its extension. *)
Definition extract_after_download (env : download_env) (outPath : string) (g : globals)
  : globals :=
  let ap := outPath in
  let outDir := fs.parent_path ap in
  let artifactName := fs.stem ap in
  let extractDir := fs.append outDir artifactName in
  let g1 := emit (progress_value 0) (post_status "Counting archive entries..." g) in
  let total := fst (count_archive_entries (extraction env) (archive env) "") in
  let g2 :=
    if 0 <? total
    then post_extract_progress (set_gExtractDone 0 (set_gExtractTotal total g1))
    else set_gExtractTotal 0 g1 in
  let g3 := post_status "Extracting..." g2 in
  let '(ok, err, g4) :=
    extract_archive_to_dir (extraction env) (archive env) extractDir "" g3 in
  let g5 := if ok then set_gExtractOk 1 g4
            else set_gExtractErr err (set_gExtractOk (-1) g4) in
  emit (post_extract_done (gExtractOk g5) (gExtractErr g5)) g5.

Definition download_file (env : download_env) (url outPath : string) (g : globals)
  : globals :=
  if negb (curl_init_ok env) then
    post_download_done_now (set_gLastCurlResult CURLE_FAILED_INIT g)
  else if negb (fopen_ok env) then
    post_download_done_now (set_gLastCurlResult CURLE_WRITE_ERROR g)
  else
    let opened := set_files (<[outPath := []]> (files g)) g in
    let '(res, g1) := curl_easy_perform outPath (transfer env) opened in
    let g2 := post_download_done_now (set_gLastCurlResult res g1) in
    if (res =? CURLE_OK) && gDoExtract g2
    then extract_after_download env outPath g2
    else g2.

(** ** Specification vocabulary for filters *)

(** [f'] is [f] with one unconstrained field set to a value, the other four
    fields unchanged. *)
Inductive narrows : Filters -> Filters -> Prop :=
| narrows_arch f v : f_arch f = Arch_Any ->
    narrows f {| f_arch := v; f_mrt := f_mrt f; f_exc := f_exc f; f_crt := f_crt f; f_rt := f_rt f |}
| narrows_mrt f v : f_mrt f = MRT_Any ->
    narrows f {| f_arch := f_arch f; f_mrt := v; f_exc := f_exc f; f_crt := f_crt f; f_rt := f_rt f |}
| narrows_exc f v : f_exc f = EXC_Any ->
    narrows f {| f_arch := f_arch f; f_mrt := f_mrt f; f_exc := v; f_crt := f_crt f; f_rt := f_rt f |}
| narrows_crt f v : f_crt f = CRT_Any ->
    narrows f {| f_arch := f_arch f; f_mrt := f_mrt f; f_exc := f_exc f; f_crt := v; f_rt := f_rt f |}
| narrows_rt f v : f_rt f = RT_Any ->
    narrows f {| f_arch := f_arch f; f_mrt := f_mrt f; f_exc := f_exc f; f_crt := f_crt f; f_rt := v |}.

(** The indices from [i] on of the assets that match. *)
Fixpoint matching_indices (gFilters : Filters) (rest : list Asset) (i : Z) : list Z :=
  match rest with
  | [] => []
  | a :: rest' =>
      if asset_matches gFilters a then i :: matching_indices gFilters rest' (i + 1)
      else matching_indices gFilters rest' (i + 1)
  end.

(** ** Specification vocabulary for the stored collection *)

(** Every release has a tag and every asset a name. *)
Definition well_named (rs : list Release) : Prop :=
  Forall (fun r => tag r <> "" /\ Forall (fun a => name a <> "") (assets r)) rs.

(** The object has no string under [key], or the empty one. *)
Definition missing_or_empty (members : list (string * json)) (key : string) : Prop :=
  nlohmann.find_member members key = None
  \/ nlohmann.find_member members key = Some (Jstring "").

(** A payload whose second record is not an object: the text
    [[{"tag_name":"v1"},7]]. *)
Definition payload_with_bad_record : json :=
  Jarray [Jobject [("tag_name", Jstring "v1")]; Jnumber_unsigned 7].

(** ** Specification vocabulary for extraction *)

(** The entry has a declared path that is neither empty nor absolute: the
    loop does not skip it. *)
Definition extractable (e : archive_entry) : bool :=
  match pathname e with
  | Some p => negb (string_empty p) && negb (fs.is_absolute p)
  | None => false
  end.

(** The counts carried by the posts of [awake_update_extract_progress] made
    after an entry was completed ([gExtractDone] is positive in those). *)
Fixpoint completed_posts (events : list ui_event) : list Z :=
  match events with
  | [] => []
  | post_update_extract_progress _ done :: rest =>
      if 0 <? done then done :: completed_posts rest else completed_posts rest
  | _ :: rest => completed_posts rest
  end.

(** The calls [copy_archive_data] makes on the disk writer: one per block,
    up to the first that fails. *)
Fixpoint copy_ops (bs : list data_block) : list archive_op :=
  match bs with
  | [] => []
  | b :: rest =>
      write_data_block (buff b) (offset b) (block_write b)
      :: match block_write b with
         | ARCHIVE_OK => copy_ops rest
         | write_failed _ => []
         end
  end.

(** The paths handed to the disk writer. *)
Fixpoint written_paths (ops : list archive_op) : list string :=
  match ops with
  | [] => []
  | write_header path _ :: rest => path :: written_paths rest
  | _ :: rest => written_paths rest
  end.

(** The globals after a run of calls on libarchive. *)
Definition run_ops (ops : list archive_op) (g : globals) : globals :=
  fold_left (fun g op => archive_call op g) ops g.

(** ** Specification vocabulary for transfers *)

(** The body bytes libcurl hands over in a run of events. *)
Fixpoint received (events : list curl_event) : list Byte.byte :=
  match events with
  | [] => []
  | ev_data chunk _ :: rest => (chunk ++ received rest)%list
  | _ :: rest => received rest
  end.

(** ** Concrete inputs *)

Definition fresh_globals : globals :=
  {| gCancel := false; gLastCurlResult := 0; gProgressValue := 0%Q;
     gDoExtract := true; gExtractOk := 0; gExtractErr := ""; gExtractTotal := 0;
     gExtractDone := 0; gUiText := ""; ui := []; archive_ops := []; files := ∅ |}.

Definition plain_env : extract_env :=
  {| read_new_ok := true; write_disk_new_ok := true; create_directories_error := None |}.

Definition one_block : data_block :=
  {| buff := [Byte.x23; Byte.x21]; offset := 0; block_write := ARCHIVE_OK |}.

(** An entry that climbs out of the destination into a sibling directory
    whose name continues the name of the destination. *)
Definition sibling_entry : archive_entry :=
  {| pathname := Some "../pkg-evil/run.sh"; blocks := [one_block];
     data_end := ARCHIVE_EOF; header_write := ARCHIVE_OK |}.

Definition sibling_archive : archive_file :=
  {| open_ok := true; entries := [sibling_entry]; headers_end := ARCHIVE_EOF;
     error_string := None |}.

(** An asset as the decoder builds it from a name. *)
Definition asset_named (n : string) : Asset :=
  {| name := n; size := 0; url := ""; info := parse_asset_name n |}.

Definition sample_releases : list Release :=
  [ {| tag := "13.1.0-rt_v11-rev1"; published_at := "2023-05-01T10:00:00Z";
       assets := [ asset_named "i686-13.1.0-release-posix-dwarf-ucrt-rt_v11-rev1.7z";
                   asset_named "x86_64-13.1.0-release-posix-seh-ucrt-rt_v11-rev1.7z";
                   asset_named "i686-13.1.0-release-win32-dwarf-msvcrt-rt_v11-rev1.7z" ] |} ].

Definition only_i686 : Filters :=
  {| f_arch := Arch_I686; f_mrt := MRT_Any; f_exc := EXC_Any; f_crt := CRT_Any;
     f_rt := RT_Any |}.

(** A payload of two records, the second without a tag. *)
Definition payload_with_untagged_record : json :=
  Jarray [ Jobject [("tag_name", Jstring "v1")];
           Jobject [("published_at", Jstring "2023-05-01T10:00:00Z")] ].

(** An entry whose header the disk writer refuses. *)
Definition refused_entry : archive_entry :=
  {| pathname := Some "bin/gcc.exe"; blocks := [one_block];
     data_end := ARCHIVE_EOF; header_write := write_failed ARCHIVE_FAILED |}.


Definition plain_entry : archive_entry :=
  {| pathname := Some "README.txt"; blocks := [one_block];
     data_end := ARCHIVE_EOF; header_write := ARCHIVE_OK |}.


Definition plain_archive : archive_file :=
  {| open_ok := true; entries := [plain_entry; refused_entry];
     headers_end := ARCHIVE_EOF; error_string := None |}.

Definition plain_download : download_env :=
  {| curl_init_ok := true; fopen_ok := true; transfer := [];
     extraction := plain_env; archive := plain_archive |}.

(** A transfer cancelled after the first of three chunks. *)
Definition cancelled_download : download_env :=
  {| curl_init_ok := true; fopen_ok := true;
     transfer := [ ev_progress 6 0; ev_data [Byte.x50; Byte.x4b] 2; ev_progress 6 2;
                   ev_cancel; ev_data [Byte.x03; Byte.x04] 2; ev_progress 6 4;
                   ev_data [Byte.x14; Byte.x00] 2; ev_progress 6 6 ];
     extraction := plain_env; archive := plain_archive |}.

(** ** The window: widgets, callbacks and the refresh

    The widgets are kept as what the program reads from them and writes to
    them: the items of the release choice and its selected index, the rows of
    the asset browser with the index map and its selected line, the selected
    index of each filter choice, and the status line. *)

Record filter_choices := {
  gArch_value : Z;
  gMrt_value : Z;
  gExc_value : Z;
  gCrt_value : Z;
  gRt_value : Z
}.

Record app := {
  app_gReleases : list Release;   (* gReleases *)
  app_gFilters : Filters;         (* gFilters *)
  gRelease_items : list string;   (* labels added to gRelease *)
  gRelease_value : Z;             (* gRelease->value(), -1 when nothing is selected *)
  shown : asset_list;             (* rows of gAssets, and gAssetIndexMap *)
  gAssets_value : Z;              (* gAssets->value(), a line from 1, 0 when none *)
  choices : filter_choices;
  gStatus : string;
  gRefreshStage : Z
}.

Definition with_shown (l : asset_list) (st : app) : app :=
  {| app_gReleases := app_gReleases st; app_gFilters := app_gFilters st;
     gRelease_items := gRelease_items st; gRelease_value := gRelease_value st;
     shown := l; gAssets_value := 0;
     choices := choices st; gStatus := gStatus st; gRefreshStage := gRefreshStage st |}.

Definition with_status (text : string) (st : app) : app :=
  {| app_gReleases := app_gReleases st; app_gFilters := app_gFilters st;
     gRelease_items := gRelease_items st; gRelease_value := gRelease_value st;
     shown := shown st; gAssets_value := gAssets_value st;
     choices := choices st; gStatus := text; gRefreshStage := gRefreshStage st |}.

(** [rebuild_asset_list_for_release] on the window: the browser is cleared,
    which drops its selection, and filled again. *)
Definition rebuild_in (r_idx : Z) (st : app) : app :=
  with_shown (rebuild_asset_list_for_release (app_gReleases st) (app_gFilters st) r_idx) st.

(** [s.substr(0, n)] *)
Definition substr0 (s : string) (n : nat) : string := String.substring 0 n s.

(** The label [populate_release_choice] builds for a release. *)
Definition release_label (r : Release) : string :=
  tag r +:+ "  ("
  +:+ (if (10 <=? String.length (published_at r))%nat
       then substr0 (published_at r) 10 else "")
  +:+ ")".

Definition populate_release_choice (st : app) : app :=
  let filled :=
    {| app_gReleases := app_gReleases st; app_gFilters := app_gFilters st;
       gRelease_items := map release_label (app_gReleases st);
       gRelease_value := -1;
       shown := shown st; gAssets_value := gAssets_value st;
       choices := choices st; gStatus := gStatus st; gRefreshStage := gRefreshStage st |} in
  match app_gReleases st with
  | [] => filled
  | _ :: _ =>
      rebuild_in 0
        {| app_gReleases := app_gReleases filled; app_gFilters := app_gFilters filled;
           gRelease_items := gRelease_items filled; gRelease_value := 0;
           shown := shown filled; gAssets_value := gAssets_value filled;
           choices := choices filled; gStatus := gStatus filled;
           gRefreshStage := gRefreshStage filled |}
  end.

Definition on_release_changed (st : app) : app := rebuild_in (gRelease_value st) st.

(** The [switch] statements of [on_filters_changed]: a value without a case
    leaves the field as it is. *)
Definition arch_of_choice (v : Z) (old : Arch) : Arch :=
  match v with 0 => Arch_Any | 1 => Arch_I686 | 2 => Arch_X86_64 | _ => old end.
Definition mrt_of_choice (v : Z) (old : MRT) : MRT :=
  match v with 0 => MRT_Any | 1 => MRT_Posix | 2 => MRT_Win32 | 3 => MRT_Mcf | _ => old end.
Definition exc_of_choice (v : Z) (old : EXC) : EXC :=
  match v with 0 => EXC_Any | 1 => EXC_Seh | 2 => EXC_Dwarf | _ => old end.
Definition crt_of_choice (v : Z) (old : CRT) : CRT :=
  match v with 0 => CRT_Any | 1 => CRT_Ucrt | 2 => CRT_Msvcrt | _ => old end.
Definition rt_of_choice (v : Z) (old : RT) : RT :=
  match v with 0 => RT_Any | 1 => RT_V13 | _ => old end.

Definition with_filters (f : Filters) (c : filter_choices) (st : app) : app :=
  {| app_gReleases := app_gReleases st; app_gFilters := f;
     gRelease_items := gRelease_items st; gRelease_value := gRelease_value st;
     shown := shown st; gAssets_value := gAssets_value st;
     choices := c; gStatus := gStatus st; gRefreshStage := gRefreshStage st |}.

Definition on_filters_changed (st : app) : app :=
  let c := choices st in
  let old := app_gFilters st in
  let f := {| f_arch := arch_of_choice (gArch_value c) (f_arch old);
              f_mrt := mrt_of_choice (gMrt_value c) (f_mrt old);
              f_exc := exc_of_choice (gExc_value c) (f_exc old);
              f_crt := crt_of_choice (gCrt_value c) (f_crt old);
              f_rt := rt_of_choice (gRt_value c) (f_rt old) |} in
  let st' := with_filters f c st in
  rebuild_in (gRelease_value st') st'.

Definition on_reset_filters (st : app) : app :=
  let zero := {| gArch_value := 0; gMrt_value := 0; gExc_value := 0; gCrt_value := 0;
                 gRt_value := 0 |} in
  let st' := with_filters Filters_default zero st in
  rebuild_in (gRelease_value st') st'.

(** *** Fetching the metadata *)

(** What libcurl does in [fetch_releases_json]: body bytes for
    [write_callback], and possibly a failure of the transfer.  No progress
    callback is installed there. *)
Inductive fetch_event :=
| fetch_data (contents : string)
| fetch_fail (code : positive).

Record fetch_env := {
  fetch_init_ok : bool;            (* curl_easy_init returns a handle *)
  fetch_events : list fetch_event
}.

(** The returned count with the string behind [user_p]. *)
Definition write_callback (contents : string) (response : string) : nat * string :=
  (String.length contents, response +:+ contents).

Fixpoint fetch_perform (events : list fetch_event) (response : string) : Z * string :=
  match events with
  | [] => (CURLE_OK, response)
  | fetch_data contents :: rest =>
      let '(accepted, response') := write_callback contents response in
      if (accepted =? String.length contents)%nat then fetch_perform rest response'
      else (CURLE_WRITE_ERROR, response')
  | fetch_fail code :: _ => (Zpos code, response)
  end.

Definition fetch_releases_json (env : fetch_env) : string :=
  if negb (fetch_init_ok env) then ""
  else
    let '(res, response) := fetch_perform (fetch_events env) "" in
    if negb (res =? CURLE_OK) then "" else response.

Definition with_refresh (stage : Z) (rels : list Release) (st : app) : app :=
  {| app_gReleases := rels; app_gFilters := app_gFilters st;
     gRelease_items := gRelease_items st; gRelease_value := gRelease_value st;
     shown := shown st; gAssets_value := gAssets_value st;
     choices := choices st; gStatus := gStatus st; gRefreshStage := stage |}.

(** The thread [on_refresh] starts, run to its end. *)
Definition on_refresh_thread (json_parse : string -> throws json) (env : fetch_env)
    (st : app) : app :=
  let data := fetch_releases_json env in
  if string_empty data then with_refresh 1 (app_gReleases st) st
  else
    let '(ok, rels) := parse_releases json_parse data (app_gReleases st) in
    if negb ok then with_refresh 2 rels st
    else with_refresh 3 rels st.

Definition awake_refresh_done (st : app) : app :=
  match gRefreshStage st with
  | 1 => with_status "Network error." st
  | 2 => with_status "JSON parse error." st
  | 3 => with_status "Releases loaded." (populate_release_choice st)
  | _ => st
  end.

(** [on_refresh] with its thread and the handler the thread posts. *)
Definition on_refresh (json_parse : string -> throws json) (env : fetch_env) (st : app)
  : app :=
  awake_refresh_done
    (on_refresh_thread json_parse env (with_status "Fetching releases..." st)).

(** *** Starting a download *)

(** How [start_download] ends. *)
Inductive started :=
| fl_alert (message : string)
| status_only (text : string)
| out_of_range                      (* an index past the end of a vector *)
| launched (url outPath : string) (text : string) (extract_after : bool).

(** [s.back()] of a non-empty string. *)
Definition back (s : string) : ascii := List.last (list_ascii_of_string s) "000"%char.

Definition backslash : ascii := ascii_of_nat 92.

(** [picked] is what [pick_output_dir] returns, empty when the dialog is
    dismissed.  On [launched] the program has reset [gCancel], [gExtractOk]
    and [gExtractErr], set [gDoExtract] to [extract_after], and started
    [download_file] on the two strings. *)
Definition start_download (extract_after : bool) (picked : string) (st : app) : started :=
  let r_idx := gRelease_value st in
  let a_row := gAssets_value st in
  if (r_idx <? 0) || (a_row <=? 0) then fl_alert "Select release and asset first."
  else
    let map_ := gAssetIndexMap (shown st) in
    let real_idx :=
      match map_ with
      | [] => Some (a_row - 1)
      | _ :: _ =>
          if (Z.of_nat (length map_) <=? a_row - 1) then None
          else Some (default 0 (map_ !! Z.to_nat (a_row - 1)))
      end in
    match real_idx with
    | None => fl_alert "Invalid selection."
    | Some real_idx =>
        match app_gReleases st !! Z.to_nat r_idx with
        | None => out_of_range
        | Some rel =>
            if real_idx <? 0 then out_of_range
            else
              match assets rel !! Z.to_nat real_idx with
              | None => out_of_range
              | Some asset =>
                  let outDir := picked in
                  if string_empty outDir then status_only "Cancelled."
                  else
                    let sep :=
                      if negb (Ascii.eqb (back outDir) backslash)
                         && negb (Ascii.eqb (back outDir) fs.slash)
                      then String backslash "" else "" in
                    launched (url asset) (outDir +:+ sep +:+ name asset)
                      (if extract_after then "Downloading (then extract)..."
                       else "Downloading...")
                      extract_after
              end
        end
    end.

(** ** Specification vocabulary for the window *)

(** The browser shows the list built for the selected release under the
    current filters: what every callback that changes either leaves behind. *)
Definition list_in_step (st : app) : Prop :=
  shown st
  = rebuild_asset_list_for_release (app_gReleases st) (app_gFilters st) (gRelease_value st).

(** The counts carried by all posts of [awake_update_extract_progress]. *)
Fixpoint extract_progress_posts (events : list ui_event) : list Z :=
  match events with
  | [] => []
  | post_update_extract_progress _ done :: rest => done :: extract_progress_posts rest
  | _ :: rest => extract_progress_posts rest
  end.

(** No progress tick among the events. *)
Fixpoint no_tick (events : list curl_event) : bool :=
  match events with
  | [] => true
  | ev_progress _ _ :: _ => false
  | _ :: rest => no_tick rest
  end.

(** Every chunk is stored whole and the transfer does not fail. *)
Fixpoint all_stored (events : list curl_event) : bool :=
  match events with
  | [] => true
  | ev_data chunk stored :: rest => (length chunk <=? stored)%nat && all_stored rest
  | ev_fail _ :: _ => false
  | _ :: rest => all_stored rest
  end.

(** The consumer never cancels. *)
Fixpoint never_cancelled (events : list curl_event) : bool :=
  match events with
  | [] => true
  | ev_cancel :: _ => false
  | _ :: rest => never_cancelled rest
  end.

(** The body bytes of a fetch. *)
Fixpoint fetched (events : list fetch_event) : string :=
  match events with
  | [] => ""
  | fetch_data contents :: rest => contents +:+ fetched rest
  | fetch_fail _ :: rest => fetched rest
  end.

Fixpoint fetch_fails (events : list fetch_event) : bool :=
  match events with
  | [] => false
  | fetch_data _ :: rest => fetch_fails rest
  | fetch_fail _ :: _ => true
  end.

(** The names of the assets that match, in order. *)
Fixpoint matching_names (gFilters : Filters) (rest : list Asset) : list string :=
  match rest with
  | [] => []
  | a :: rest' =>
      if asset_matches gFilters a then name a :: matching_names gFilters rest'
      else matching_names gFilters rest'
  end.

(** The first element a loop over the document visits is not an object. *)
Definition first_not_object (j : json) : bool :=
  match nlohmann.items j with
  | Jobject _ :: _ => false
  | _ :: _ => true
  | [] => false
  end.

Definition sample_app : app :=
  {| app_gReleases := sample_releases; app_gFilters := only_i686;
     gRelease_items := map release_label sample_releases; gRelease_value := 0;
     shown := rebuild_asset_list_for_release sample_releases only_i686 0;
     gAssets_value := 2;
     choices := {| gArch_value := 1; gMrt_value := 0; gExc_value := 0; gCrt_value := 0;
                   gRt_value := 0 |};
     gStatus := "Releases loaded."; gRefreshStage := 3 |}.

Definition garbled_fetch : fetch_env :=
  {| fetch_init_ok := true; fetch_events := [fetch_data "<html>Bad gateway</html>"] |}.

Definition reject_all (data : string) : throws json := Throws parse_error.

Definition accept_untagged (data : string) : throws json :=
  Returns payload_with_untagged_record.

(** Every asset carries the attributes parsed from its name. *)
Definition info_from_name (rs : list Release) : Prop :=
  Forall (fun r => Forall (fun a => info a = parse_asset_name (name a)) (assets r)) rs.

(** The release has a tag. *)
Definition has_tag (rel : Release) : bool := negb (string_empty (tag rel)).

(** An archive whose second entry climbs out of the destination. *)
Definition climbing_entry : archive_entry :=
  {| pathname := Some "../../etc/passwd"; blocks := [one_block];
     data_end := ARCHIVE_EOF; header_write := ARCHIVE_OK |}.

Definition climbing_archive : archive_file :=
  {| open_ok := true; entries := [plain_entry; climbing_entry; plain_entry];
     headers_end := ARCHIVE_EOF; error_string := None |}.

(** The globals when a plain download is started. *)
Definition download_only_globals : globals :=
  {| gCancel := false; gLastCurlResult := 0; gProgressValue := 0%Q;
     gDoExtract := false; gExtractOk := 0; gExtractErr := ""; gExtractTotal := 0;
     gExtractDone := 0; gUiText := ""; ui := []; archive_ops := []; files := ∅ |}.

(** A transfer of four bytes in two chunks that runs to its end. *)
Definition complete_download : download_env :=
  {| curl_init_ok := true; fopen_ok := true;
     transfer := [ ev_progress 4 0; ev_data [Byte.x50; Byte.x4b] 2; ev_progress 4 2;
                   ev_data [Byte.x03; Byte.x04] 2; ev_progress 4 4 ];
     extraction := plain_env; archive := plain_archive |}.

(** Chunks with a cancellation between them and no tick. *)
Definition untimed_events : list curl_event :=
  [ev_data [Byte.x50; Byte.x4b] 2; ev_cancel; ev_data [Byte.x03] 1].

(** The window with the Arch choice on its second item, "i686". *)
Definition i686_chosen : app :=
  {| app_gReleases := sample_releases; app_gFilters := Filters_default;
     gRelease_items := map release_label sample_releases; gRelease_value := 0;
     shown := rebuild_asset_list_for_release sample_releases Filters_default 0;
     gAssets_value := 0;
     choices := {| gArch_value := 1; gMrt_value := 0; gExc_value := 0; gCrt_value := 0;
                   gRt_value := 0 |};
     gStatus := "Releases loaded."; gRefreshStage := 3 |}.

(** ** Pathnames in the format of the platform

    [std::filesystem] reads a pathname in the format of the platform it is
    built for, and the extraction calls five of its operations.  They are
    gathered here, so that the extraction can be stated once for every
    format. *)
Record path_library := {
  path_is_absolute : string -> bool;          (* p.is_absolute() *)
  path_append : string -> string -> string;   (* a / b *)
  path_lexically_normal : string -> string;   (* p.lexically_normal() *)
  path_parent_path : string -> string;        (* p.parent_path() *)
  path_stem : string -> string                (* p.stem() *)
}.

(** The format with ['/'] as only separator and no root names, as in
    [fs] above. *)
Definition posix_paths : path_library :=
  {| path_is_absolute := fs.is_absolute; path_append := fs.append;
     path_lexically_normal := fs.lexically_normal;
     path_parent_path := fs.parent_path; path_stem := fs.stem |}.

(** The format of Windows, the platform the program builds for
    ([pick_output_dir] exists under [_WIN32] only): ['/'] and ['\'] both
    separate directories, ['\'] is the preferred one, and a pathname may
    begin with a root name, a drive letter with its colon (["C:"]) or two
    separators and a host name (["\\host"]). *)
Module win.

Definition is_separator (c : ascii) : bool := Ascii.eqb c fs.slash || Ascii.eqb c backslash.

Definition is_letter (c : ascii) : bool :=
  let n := nat_of_ascii c in
  ((65 <=? n) && (n <=? 90) || (97 <=? n) && (n <=? 122))%nat.

(** The number of characters before the first separator. *)
Fixpoint name_length (s : string) : nat :=
  match s with
  | String c s' => if is_separator c then 0%nat else S (name_length s')
  | EmptyString => 0%nat
  end.

Definition root_name_length (s : string) : nat :=
  match s with
  | String a (String b rest) =>
      if is_letter a && Ascii.eqb b ":"%char then 2%nat
      else if is_separator a && is_separator b then
        match rest with
        | String c _ => if is_separator c then 0%nat else (2 + name_length rest)%nat
        | EmptyString => 0%nat
        end
      else 0%nat
  | _ => 0%nat
  end.

Fixpoint drop_chars (n : nat) (s : string) : string :=
  match n, s with
  | S n', String _ s' => drop_chars n' s'
  | _, _ => s
  end.

(** [p.root_name()] *)
Definition root_name (s : string) : string := String.substring 0 (root_name_length s) s.

(** The pathname without its root name. *)
Definition after_root_name (s : string) : string := drop_chars (root_name_length s) s.

Definition has_root_name (s : string) : bool := (0 <? root_name_length s)%nat.

Definition has_root_directory (s : string) : bool :=
  match after_root_name s with
  | String c _ => is_separator c
  | EmptyString => false
  end.

Definition is_absolute (s : string) : bool := has_root_name s && has_root_directory s.

(** The pieces between separators, empty ones included. *)
Fixpoint pieces (s : string) : list string :=
  match s with
  | EmptyString => [EmptyString]
  | String c s' =>
      if is_separator c then EmptyString :: pieces s'
      else match pieces s' with
           | p :: ps => String c p :: ps
           | [] => [String c EmptyString]
           end
  end.

(** [p.filename()] *)
Definition filename (s : string) : string := List.last (pieces (after_root_name s)) "".

Definition has_filename (s : string) : bool := negb (string_empty (filename s)).

(** [base / p] *)
Definition append (base p : string) : string :=
  if is_absolute p
     || has_root_name p && negb (String.eqb (root_name p) (root_name base))
  then p
  else if has_root_directory p then root_name base +:+ after_root_name p
  else if has_filename base || negb (has_root_directory base) && is_absolute base
  then base +:+ String backslash (after_root_name p)
  else base +:+ after_root_name p.

Fixpoint join (names : list string) : string :=
  match names with
  | [] => ""
  | [n] => n
  | n :: rest => n +:+ String backslash (join rest)
  end.

(** A root name with its slashes turned into the preferred separator. *)
Fixpoint preferred (s : string) : string :=
  match s with
  | String c s' => String (if Ascii.eqb c fs.slash then backslash else c) (preferred s')
  | EmptyString => EmptyString
  end.

(** [p.lexically_normal()] *)
Definition lexically_normal (s : string) : string :=
  if string_empty s then ""
  else
    let name := preferred (root_name s) in
    let root := has_root_directory s in
    let stack := fold_left (fs.normal_step root) (pieces (after_root_name s)) [] in
    let final := filename s in
    let trailing := string_empty final || fs.is_dot final || fs.is_dotdot final in
    match stack with
    | [] =>
        if root then name +:+ String backslash ""
        else if string_empty name then "." else name
    | top :: _ =>
        name +:+ (if root then String backslash "" else "") +:+ join (rev stack)
        +:+ (if trailing && negb (fs.is_dotdot top) then String backslash "" else "")
    end.

Fixpoint all_separators (s : string) : bool :=
  match s with
  | EmptyString => true
  | String c s' => is_separator c && all_separators s'
  end.

Fixpoint drop_leading_separators (s : string) : string :=
  match s with
  | String c s' => if is_separator c then drop_leading_separators s' else s
  | EmptyString => EmptyString
  end.

Fixpoint drop_to_separator (s : string) : string :=
  match s with
  | String c s' => if is_separator c then s else drop_to_separator s'
  | EmptyString => EmptyString
  end.

(** [p.parent_path()]: the path up to the end of the component before the
    last one. *)
Definition parent_path (s : string) : string :=
  let rest := after_root_name s in
  if all_separators rest then s
  else
    let before_last := drop_to_separator (fs.rev_string rest) in
    let trimmed := drop_leading_separators before_last in
    if string_empty trimmed && negb (string_empty before_last)
    then root_name s +:+ String.substring 0 1 rest
    else root_name s +:+ fs.rev_string trimmed.

(** [p.stem()] *)
Definition stem (s : string) : string :=
  let f := filename s in
  if fs.is_dot f || fs.is_dotdot f then f
  else match fs.drop_to_dot (fs.rev_string f) with
       | Some before => if string_empty before then f else fs.rev_string before
       | None => f
       end.

End win.

Definition windows_paths : path_library :=
  {| path_is_absolute := win.is_absolute; path_append := win.append;
     path_lexically_normal := win.lexically_normal;
     path_parent_path := win.parent_path; path_stem := win.stem |}.

(** ** The extraction in the format of the platform

    [safe_join], the loop of [extract_archive_to_dir] and the extraction at
    the end of [download_file], with the pathname operations taken from a
    [path_library].  With [posix_paths] they are the functions of the same
    names above; with [windows_paths] they are the extraction of the program
    as it is built. *)
Module platform.

Definition safe_join (lib : path_library) (base rel : string) : string + string :=
  let out := path_lexically_normal lib (path_append lib base rel) in
  let baseN := path_lexically_normal lib base in
  let baseStr := baseN in
  let outStr := out in
  if (String.length outStr <? String.length baseStr)%nat
     || negb (std.starts_with baseStr outStr)
  then inr "Blocked path traversal in archive entry"
  else inl out.

Fixpoint extract_entries (lib : path_library) (base : string) (ar : archive_file)
    (rest : list archive_entry) (doneCount : Z) (g : globals) : loop_exit * globals :=
  match rest with
  | [] => (headers_exhausted, g)
  | entry :: rest' =>
      match pathname entry with
      | None => extract_entries lib base ar rest' doneCount (archive_call read_data_skip g)
      | Some p =>
          if string_empty p then
            extract_entries lib base ar rest' doneCount (archive_call read_data_skip g)
          else if path_is_absolute lib p then
            extract_entries lib base ar rest' doneCount (archive_call read_data_skip g)
          else
            match safe_join lib base p with
            | inr what => (threw what, g)
            | inl full =>
                let g1 := archive_call (write_header full (header_write entry)) g in
                let finish_entry := fun g2 =>
                  let g3 := archive_call write_finish_entry g2 in
                  let doneCount' := doneCount + 1 in
                  extract_entries lib base ar rest' doneCount'
                    (post_extract_progress (set_gExtractDone doneCount' g3)) in
                match header_write entry with
                | ARCHIVE_OK =>
                    match copy_archive_data (blocks entry) (data_end entry) g1 with
                    | (write_failed _, g2) =>
                        (returned_false (archive_error_or ar "extract data failed"), g2)
                    | (ARCHIVE_OK, g2) => finish_entry g2
                    end
                | write_failed _ =>
                    (* header write failed; skip data to continue *)
                    finish_entry (archive_call read_data_skip g1)
                end
            end
      end
  end.

Definition extract_archive_to_dir (lib : path_library) (env : extract_env)
    (ar : archive_file) (outDir : string) (err : string) (g : globals)
  : bool * string * globals :=
  let g0 := post_extract_progress (set_gExtractDone 0 g) in
  let base := outDir in
  match create_directories_error env with
  | Some what => (false, what, g0)
  | None =>
      if negb (read_new_ok env) || negb (write_disk_new_ok env)
      then (false, "libarchive init failed", g0)
      else if negb (open_ok ar)
      then (false, archive_error_or ar "open archive failed", g0)
      else
        match extract_entries lib base ar (entries ar) 0 g0 with
        | (threw what, g') => (false, what, g')
        | (returned_false e, g') => (false, e, g')
        | (headers_exhausted, g') =>
            match headers_end ar with
            | ARCHIVE_EOF => (true, err, g')
            | read_failed _ => (false, archive_error_or ar "read header failed", g')
            end
        end
  end.

Definition extract_after_download (lib : path_library) (env : download_env)
    (outPath : string) (g : globals) : globals :=
  let ap := outPath in
  let outDir := path_parent_path lib ap in
  let artifactName := path_stem lib ap in
  let extractDir := path_append lib outDir artifactName in
  let g1 := emit (progress_value 0) (post_status "Counting archive entries..." g) in
  let total := fst (count_archive_entries (extraction env) (archive env) "") in
  let g2 :=
    if 0 <? total
    then post_extract_progress (set_gExtractDone 0 (set_gExtractTotal total g1))
    else set_gExtractTotal 0 g1 in
  let g3 := post_status "Extracting..." g2 in
  let '(ok, err, g4) :=
    extract_archive_to_dir lib (extraction env) (archive env) extractDir "" g3 in
  let g5 := if ok then set_gExtractOk 1 g4
            else set_gExtractErr err (set_gExtractOk (-1) g4) in
  emit (post_extract_done (gExtractOk g5) (gExtractErr g5)) g5.

(** The entry has a declared path that is neither empty nor absolute in the
    format of the platform: the loop does not skip it. *)
Definition extractable (lib : path_library) (e : archive_entry) : bool :=
  match pathname e with
  | Some p => negb (string_empty p) && negb (path_is_absolute lib p)
  | None => false
  end.

(** The calls an extraction makes for one entry that it completes. *)
Definition entry_ops (lib : path_library) (base : string) (e : archive_entry)
  : list archive_op :=
  match pathname e with
  | None => [read_data_skip]
  | Some p =>
      if string_empty p || path_is_absolute lib p then [read_data_skip]
      else
        match safe_join lib base p with
        | inr _ => []
        | inl full =>
            match header_write e with
            | ARCHIVE_OK =>
                (write_header full ARCHIVE_OK :: copy_ops (blocks e) ++ [write_finish_entry])%list
            | write_failed err =>
                [write_header full (write_failed err); read_data_skip; write_finish_entry]
            end
        end
  end.

(** The claim on counting and progress, for one archive and one run: the
    count is the number of entries, and a successful extraction posts one
    completion per entry and ends on 100%. *)
Definition progress_reaches_count (lib : path_library) (env : download_env)
    (outPath : string) (g : globals) : Prop :=
  let n := Z.of_nat (length (entries (archive env))) in
  let g' := extract_after_download lib env outPath g in
  fst (count_archive_entries (extraction env) (archive env) "") = n /\
  (gExtractOk g' = 1 ->
   completed_posts (drop (length (ui g)) (ui g')) = seqZ 1 n /\
   (awake_update_extract_progress (gExtractTotal g') (gExtractDone g') == 100)%Q).

Definition download_file (lib : path_library) (env : download_env) (url outPath : string)
    (g : globals) : globals :=
  if negb (curl_init_ok env) then
    post_download_done_now (set_gLastCurlResult CURLE_FAILED_INIT g)
  else if negb (fopen_ok env) then
    post_download_done_now (set_gLastCurlResult CURLE_WRITE_ERROR g)
  else
    let opened := set_files (<[outPath := []]> (files g)) g in
    let '(res, g1) := curl_easy_perform outPath (transfer env) opened in
    let g2 := post_download_done_now (set_gLastCurlResult res g1) in
    if (res =? CURLE_OK) && gDoExtract g2
    then extract_after_download lib env outPath g2
    else g2.

End platform.

(** A well-formed archive whose only entry declares a path on a drive. *)
Definition drive_entry : archive_entry :=
  {| pathname := Some "C:/Windows/evil.dll"; blocks := [one_block];
     data_end := ARCHIVE_EOF; header_write := ARCHIVE_OK |}.

Definition drive_archive : archive_file :=
  {| open_ok := true; entries := [drive_entry]; headers_end := ARCHIVE_EOF;
     error_string := None |}.

Definition drive_env : download_env :=
  {| curl_init_ok := true; fopen_ok := true; transfer := [];
     extraction := plain_env; archive := drive_archive |}.

(** An archive with an entry on a drive, an entry without a name and two
    entries that are written. *)
Definition unnamed_entry : archive_entry :=
  {| pathname := Some ""; blocks := []; data_end := ARCHIVE_EOF;
     header_write := ARCHIVE_OK |}.

Definition mixed_archive : archive_file :=
  {| open_ok := true; entries := [plain_entry; drive_entry; unnamed_entry; refused_entry];
     headers_end := ARCHIVE_EOF; error_string := None |}.

Definition mixed_download : download_env :=
  {| curl_init_ok := true; fopen_ok := true; transfer := [];
     extraction := plain_env; archive := mixed_archive |}.

(** An archive whose first entry is on a drive and whose second entry climbs
    out of the destination. *)
Definition guarded_archive : archive_file :=
  {| open_ok := true; entries := [drive_entry; climbing_entry; plain_entry];
     headers_end := ARCHIVE_EOF; error_string := None |}.

(** ** Facts about the string searches *)

Lemma append_cons (a : ascii) (s r : string) : String a s +:+ r = String a (s +:+ r).
Proof. reflexivity. Qed.

Lemma starts_with_begins t s : std.starts_with t s = true <-> begins_with t s.
Proof.
  revert s. induction t as [|a t IH]; intros s; simpl.
  - split; [intros _; exists s; reflexivity | reflexivity].
  - destruct s as [|b s].
    + split; [discriminate | intros [r Hr]; discriminate].
    + destruct (Ascii.eqb_spec a b) as [->|Hne].
      * rewrite IH. split; intros [r Hr]; exists r;
          rewrite append_cons in *; congruence.
      * split; [discriminate |].
        intros [r Hr]; rewrite append_cons in Hr; congruence.
Qed.

Lemma rfind_from_past s tok pos i best :
  (pos < i)%nat -> std.rfind_from s tok pos i best = best.
Proof.
  revert i best. induction s as [|c s IH]; intros i best Hlt; simpl.
  - destruct (Nat.leb_spec i pos); [lia | reflexivity].
  - destruct (Nat.leb_spec i pos); [lia | simpl]. apply IH. lia.
Qed.

Lemma rfind_zero s tok :
  size_t_is (std.rfind s tok 0) 0 = std.starts_with tok s.
Proof.
  unfold std.rfind. destruct s as [|c s]; simpl.
  - destruct (std.starts_with tok ""); reflexivity.
  - rewrite rfind_from_past by lia.
    destruct (std.starts_with tok (String c s)); reflexivity.
Qed.

Lemma occurs_at_head tok s : std.starts_with tok s = true -> occurs_in tok s.
Proof.
  intros E. apply starts_with_begins in E. destruct E as [r Hr].
  exists "", r. exact Hr.
Qed.

Lemma occurs_in_cons tok c s :
  occurs_in tok (String c s) ->
  std.starts_with tok (String c s) = true \/ occurs_in tok s.
Proof.
  intros (pre & post & H). destruct pre as [|d pre].
  - left. apply starts_with_begins. exists post. exact H.
  - right. exists pre, post. rewrite append_cons in H. congruence.
Qed.

Lemma occurs_in_tail tok c s : occurs_in tok s -> occurs_in tok (String c s).
Proof.
  intros (pre & post & H). exists (String c pre), post.
  rewrite append_cons. congruence.
Qed.

Lemma find_from_spec s tok i :
  match std.find_from s tok i with
  | Some _ => occurs_in tok s
  | None => ~ occurs_in tok s
  end.
Proof.
  revert i. induction s as [|c s IH]; intros i; simpl.
  - destruct (std.starts_with tok "") eqn:E.
    + apply occurs_at_head, E.
    + intros (pre & post & H). destruct pre; [| discriminate].
      assert (begins_with tok "") as B by (exists post; exact H).
      apply starts_with_begins in B. congruence.
  - destruct (std.starts_with tok (String c s)) eqn:E.
    + apply occurs_at_head, E.
    + specialize (IH (S i)). destruct (std.find_from s tok (S i)).
      * apply occurs_in_tail, IH.
      * intros H. apply occurs_in_cons in H. destruct H; [congruence | tauto].
Qed.

Lemma has_token_true s tok : has_token s tok = true <-> occurs_in tok s.
Proof.
  unfold has_token, std.find. pose proof (find_from_spec s tok 0%nat) as H.
  destruct (std.find_from s tok 0); split; try tauto; try discriminate.
Qed.

Lemma has_token_false s tok : has_token s tok = false <-> ~ occurs_in tok s.
Proof.
  rewrite <- has_token_true. destruct (has_token s tok); split; congruence.
Qed.

(** ** The attribute parser *)

Example parse_full_name :
  parse_asset_name "x86_64-13.0.0-release-posix-seh-ucrt-rt_v13-rev1.7z"
  = {| arch := Arch_X86_64; mrt := MRT_Posix; exc := EXC_Seh; crt := CRT_Ucrt;
       rt := RT_V13 |}.
Proof. reflexivity. Qed.

Example parse_arch_not_mid_string :
  parse_asset_name "mingw-i686-win32-dwarf-msvcrt-rt_v13.zip"
  = {| arch := Arch_Any; mrt := MRT_Win32; exc := EXC_Dwarf; crt := CRT_Msvcrt;
       rt := RT_V13 |}.
Proof. reflexivity. Qed.

Lemma begins_with_distinct_heads a b s t name :
  a <> b -> begins_with (String a s) name -> begins_with (String b t) name -> False.
Proof.
  intros Hne [r Hr] [r' Hr']. rewrite append_cons in Hr, Hr'. congruence.
Qed.

(** C3. The architecture field is decided by the prefix of the name alone:
    a name that begins with "i686-" gives I686, a name that begins with
    "x86_64-" gives X86_64, every other name gives Any; a name that begins
    with "x86_64-" never gives I686, whatever follows. *)
Theorem parse_arch_by_prefix (name : string) :
  (begins_with "i686-" name -> arch (parse_asset_name name) = Arch_I686) /\
  (begins_with "x86_64-" name -> arch (parse_asset_name name) = Arch_X86_64) /\
  (~ begins_with "i686-" name -> ~ begins_with "x86_64-" name ->
   arch (parse_asset_name name) = Arch_Any) /\
  (begins_with "x86_64-" name -> arch (parse_asset_name name) <> Arch_I686).
Proof.
  unfold parse_asset_name; simpl. rewrite !rfind_zero.
  destruct (std.starts_with "i686-" name) eqn:Ei;
    destruct (std.starts_with "x86_64-" name) eqn:Ex;
    try (apply starts_with_begins in Ei); try (apply starts_with_begins in Ex).
  - exfalso. eapply (begins_with_distinct_heads "i" "x"); [discriminate | eauto ..].
  - repeat split; try tauto; intros Hx; exfalso;
      apply starts_with_begins in Hx; congruence.
  - repeat split; try tauto; try discriminate.
    intros Hi. apply starts_with_begins in Hi. congruence.
  - repeat split; try discriminate; try reflexivity;
      intros H; apply starts_with_begins in H; congruence.
Qed.

Lemma parse_arch_by_prefix_witness :
  begins_with "x86_64-" "x86_64-13.1.0-i686-posix-seh.7z" /\
  arch (parse_asset_name "x86_64-13.1.0-i686-posix-seh.7z") = Arch_X86_64.
Proof.
  assert (begins_with "x86_64-" "x86_64-13.1.0-i686-posix-seh.7z") as B
    by (exists "13.1.0-i686-posix-seh.7z"; reflexivity).
  split; [exact B |].
  exact (proj1 (proj2 (parse_arch_by_prefix "x86_64-13.1.0-i686-posix-seh.7z")) B).
Defined.

(** C4. The attribute parser is total: every name has an attribute set, and
    a name with neither architecture prefix and none of the recognized
    thread-model, exception-model, C-runtime and runtime-version tokens has
    all five fields equal to Any. *)
Theorem parse_unrecognized_all_any (name : string) :
  (exists i : AssetInfo, parse_asset_name name = i) /\
  (~ begins_with "i686-" name -> ~ begins_with "x86_64-" name ->
   (forall tok, In tok recognized_tokens -> ~ occurs_in tok name) ->
   parse_asset_name name = AssetInfo_default).
Proof.
  split; [eexists; reflexivity |].
  intros Hi Hx Htok. unfold parse_asset_name, AssetInfo_default.
  rewrite !rfind_zero.
  assert (std.starts_with "i686-" name = false) as ->.
  { destruct (std.starts_with "i686-" name) eqn:E; [| reflexivity].
    apply starts_with_begins in E. tauto. }
  assert (std.starts_with "x86_64-" name = false) as ->.
  { destruct (std.starts_with "x86_64-" name) eqn:E; [| reflexivity].
    apply starts_with_begins in E. tauto. }
  assert (forall tok, In tok recognized_tokens -> has_token name tok = false) as T.
  { intros tok Hin. apply has_token_false, Htok, Hin. }
  rewrite !T by (simpl; tauto). reflexivity.
Qed.

Lemma not_begins_with_head a s b r : a <> b -> ~ begins_with (String a s) (String b r).
Proof. intros Hne [t Ht]. rewrite append_cons in Ht. congruence. Qed.

Lemma parse_unrecognized_all_any_witness :
  parse_asset_name "README.md" = AssetInfo_default.
Proof.
  apply (proj2 (parse_unrecognized_all_any "README.md")).
  - apply not_begins_with_head. discriminate.
  - apply not_begins_with_head. discriminate.
  - intros tok Hin. apply has_token_false.
    simpl in Hin. intuition (subst; reflexivity).
Defined.

(** ** The filter *)

Lemma match_filter_iff {T} `{EqDecision T} `{WithAny T} (want got : T) :
  match_filter want got = true <-> want = Any \/ want = got.
Proof.
  unfold match_filter. rewrite orb_true_iff, !bool_decide_eq_true. reflexivity.
Qed.

(** C5. An asset matches the selection exactly when, for each of the five
    fields, the selection's value is Any or equals the value parsed for the
    asset. *)
Theorem asset_matches_iff (gFilters : Filters) (a : Asset) :
  asset_matches gFilters a = true <->
  (f_arch gFilters = Arch_Any \/ f_arch gFilters = arch (info a)) /\
  (f_mrt gFilters = MRT_Any \/ f_mrt gFilters = mrt (info a)) /\
  (f_exc gFilters = EXC_Any \/ f_exc gFilters = exc (info a)) /\
  (f_crt gFilters = CRT_Any \/ f_crt gFilters = crt (info a)) /\
  (f_rt gFilters = RT_Any \/ f_rt gFilters = rt (info a)).
Proof.
  unfold asset_matches. rewrite !andb_true_iff, !match_filter_iff.
  unfold Any, Arch_any, MRT_any, EXC_any, CRT_any, RT_any. tauto.
Qed.

Lemma narrows_matches f f' a :
  narrows f f' -> asset_matches f' a = true -> asset_matches f a = true.
Proof.
  intros N. unfold asset_matches. rewrite !andb_true_iff, !match_filter_iff.
  destruct N as [f v E|f v E|f v E|f v E|f v E]; simpl; rewrite E;
    unfold Any, Arch_any, MRT_any, EXC_any, CRT_any, RT_any; tauto.
Qed.

Lemma rebuild_loop_index_map gFilters rest i acc :
  gAssetIndexMap (rebuild_loop gFilters rest i acc)
  = (gAssetIndexMap acc ++ matching_indices gFilters rest i)%list.
Proof.
  revert i acc. induction rest as [|a rest IH]; intros i acc; simpl.
  - rewrite app_nil_r. reflexivity.
  - rewrite IH. destruct (asset_matches gFilters a); simpl.
    + rewrite <- app_assoc. reflexivity.
    + reflexivity.
Qed.

Lemma matching_indices_sublist f f' rest i :
  narrows f f' -> sublist (matching_indices f' rest i) (matching_indices f rest i).
Proof.
  intros N. revert i. induction rest as [|a rest IH]; intros i; simpl.
  - constructor.
  - destruct (asset_matches f' a) eqn:E'.
    + rewrite (narrows_matches f f' a N E'). apply sublist_skip, IH.
    + destruct (asset_matches f a); [apply sublist_cons |]; apply IH.
Qed.

(** C6. Narrowing one field of the selection from Any to a value, the other
    four unchanged, gives an index map that is a subsequence of the index map
    before, hence never a longer one. *)
Theorem narrowing_never_grows (gReleases : list Release) (r_idx : Z) (f f' : Filters) :
  narrows f f' ->
  sublist (gAssetIndexMap (rebuild_asset_list_for_release gReleases f' r_idx))
          (gAssetIndexMap (rebuild_asset_list_for_release gReleases f r_idx)) /\
  (length (gAssetIndexMap (rebuild_asset_list_for_release gReleases f' r_idx))
   <= length (gAssetIndexMap (rebuild_asset_list_for_release gReleases f r_idx)))%nat.
Proof.
  intros N.
  assert (sublist (gAssetIndexMap (rebuild_asset_list_for_release gReleases f' r_idx))
                  (gAssetIndexMap (rebuild_asset_list_for_release gReleases f r_idx))) as S.
  { unfold rebuild_asset_list_for_release.
    destruct ((r_idx <? 0) || (r_idx >=? Z.of_nat (length gReleases))); [constructor |].
    destruct (gReleases !! Z.to_nat r_idx) as [rel|]; [| constructor].
    rewrite !rebuild_loop_index_map. simpl. apply matching_indices_sublist, N. }
  split; [exact S | apply sublist_length, S].
Qed.

Lemma narrowing_never_grows_witness :
  narrows Filters_default only_i686 /\
  sublist (gAssetIndexMap (rebuild_asset_list_for_release sample_releases only_i686 0))
          (gAssetIndexMap (rebuild_asset_list_for_release sample_releases Filters_default 0)) /\
  (length (gAssetIndexMap (rebuild_asset_list_for_release sample_releases only_i686 0))
   <= length (gAssetIndexMap
                (rebuild_asset_list_for_release sample_releases Filters_default 0)))%nat.
Proof.
  assert (narrows Filters_default only_i686) as N
    by exact (narrows_arch Filters_default Arch_I686 eq_refl).
  split; [exact N |].
  exact (narrowing_never_grows sample_releases 0 Filters_default only_i686 N).
Defined.

(** ** The metadata decoder *)

Lemma string_empty_false s : string_empty s = false <-> s <> "".
Proof. destruct s; simpl; split; try congruence; intros; discriminate. Qed.

Lemma parse_assets_named elems acc l :
  Forall (fun a => name a <> "") acc ->
  parse_assets elems acc = Returns l ->
  Forall (fun a => name a <> "") l.
Proof.
  revert acc. induction elems as [|a rest IH]; intros acc Hacc; simpl.
  - intros [= <-]. exact Hacc.
  - destruct (asset_of_json a) as [asset|e]; simpl; [| discriminate].
    apply IH. destruct (string_empty (name asset)) eqn:E; [exact Hacc |].
    apply Forall_app. split; [exact Hacc |].
    constructor; [| constructor]. apply string_empty_false, E.
Qed.

Lemma release_of_json_named r rel :
  release_of_json r = Returns rel -> Forall (fun a => name a <> "") (assets rel).
Proof.
  unfold release_of_json.
  destruct (nlohmann.value_string r "tag_name" "") as [t|]; simpl; [| discriminate].
  destruct (nlohmann.value_string r "published_at" "") as [p|]; simpl; [| discriminate].
  destruct (nlohmann.contains r "assets" && nlohmann.is_array (nlohmann.at_key r "assets")).
  - destruct (parse_assets _ _) as [l|] eqn:E; simpl; [| discriminate].
    intros [= <-]. simpl. eapply parse_assets_named; [| exact E]. constructor.
  - simpl. intros [= <-]. constructor.
Qed.

Lemma parse_releases_loop_named elems acc :
  well_named acc -> well_named (snd (parse_releases_loop elems acc)).
Proof.
  revert acc. induction elems as [|r rest IH]; intros acc Hacc; simpl.
  - exact Hacc.
  - destruct (release_of_json r) as [rel|e] eqn:E; simpl; [| exact Hacc].
    apply IH. destruct (string_empty (tag rel)) eqn:Et; [exact Hacc |].
    apply Forall_app. split; [exact Hacc |].
    constructor; [| constructor]. split.
    + apply string_empty_false, Et.
    + eapply release_of_json_named, E.
Qed.

Lemma parse_releases_loop_app before after acc :
  parse_releases_loop (before ++ after) acc =
  match parse_releases_loop before acc with
  | (true, acc') => parse_releases_loop after acc'
  | (false, acc') => (false, acc')
  end.
Proof.
  revert acc. induction before as [|r before IH]; intros acc; simpl.
  - reflexivity.
  - destruct (release_of_json r) as [rel|e]; [apply IH | reflexivity].
Qed.

Lemma parse_assets_app before after acc :
  parse_assets (before ++ after) acc =
  try! acc' <- parse_assets before acc; parse_assets after acc'.
Proof.
  revert acc. induction before as [|a before IH]; intros acc; simpl.
  - reflexivity.
  - destruct (asset_of_json a) as [asset|e]; simpl; [apply IH | reflexivity].
Qed.

(** Case analysis on the computation a [try!] runs first. *)
Ltac step_throws :=
  match goal with
  | |- context [bind_throws ?m _] =>
      let E := fresh "E" in destruct m eqn:E; simpl; try discriminate
  end.

Lemma value_string_missing_or_empty members key :
  missing_or_empty members key ->
  nlohmann.value_string (Jobject members) key "" = Returns "".
Proof. unfold nlohmann.value_string. intros [-> | ->]; reflexivity. Qed.

Lemma release_tag_missing_or_empty members rel :
  missing_or_empty members "tag_name" ->
  release_of_json (Jobject members) = Returns rel -> tag rel = "".
Proof.
  intros Hmiss. unfold release_of_json.
  rewrite (value_string_missing_or_empty _ _ Hmiss). simpl.
  repeat step_throws. intros [= <-]. reflexivity.
Qed.

Lemma asset_name_missing_or_empty members asset :
  missing_or_empty members "name" ->
  asset_of_json (Jobject members) = Returns asset -> name asset = "".
Proof.
  intros Hmiss. unfold asset_of_json.
  rewrite (value_string_missing_or_empty _ _ Hmiss). simpl.
  repeat step_throws. intros [= <-]. reflexivity.
Qed.

(** The collection on exit never depends on the collection on entry: the old
    records are discarded, not merged. *)
Lemma parse_releases_discards_old parsed old :
  parse_releases_parsed parsed old = parse_releases_parsed parsed [].
Proof. reflexivity. Qed.

(** Text that [json::parse] rejects leaves the collection empty. *)
Lemma parse_releases_syntax_error e old :
  parse_releases_parsed (Throws e) old = (false, []).
Proof. reflexivity. Qed.

Example decode_one_release :
  parse_releases_parsed
    (Returns (Jarray [ Jobject [ ("assets", Jarray [ Jobject [
                                    ("name", Jstring "x86_64-13.0.0-release-posix-seh-ucrt-rt_v13-rev1.7z");
                                    ("size", Jnumber_unsigned 50000000) ] ]);
                                 ("tag_name", Jstring "v13.0.0") ] ]))
    sample_releases
  = (true,
     [ {| tag := "v13.0.0"; published_at := "";
          assets := [ {| name := "x86_64-13.0.0-release-posix-seh-ucrt-rt_v13-rev1.7z";
                         size := 50000000; url := "";
                         info := {| arch := Arch_X86_64; mrt := MRT_Posix; exc := EXC_Seh;
                                    crt := CRT_Ucrt; rt := RT_V13 |} |} ] |} ]).
Proof. reflexivity. Qed.

(** C2, on the payload [[{"tag_name":"v1"},7]].  The first record is pushed
    to the collection, the second makes [value()] throw, and the decoder
    returns [false] with the first record left in the collection: a failed
    decode with a partly filled collection, whatever the collection was. *)
Theorem parse_releases_partial_on_failure (old : list Release) :
  parse_releases_parsed (Returns payload_with_bad_record) old
  = (false, [ {| tag := "v1"; published_at := ""; assets := [] |} ]).
Proof. reflexivity. Qed.

(** C10. After every run of the decoder, successful or not, every stored
    release has a non-empty tag and every stored asset a non-empty name.  A
    record that decodes without a type error and whose tag is missing or
    empty is left out: the run gives the same result as on the payload
    without that record.  Likewise an asset record whose name is missing or
    empty is left out of its release. *)
Theorem decoder_keeps_named_records
    (json_parse : string -> throws json) (data : string) (old : list Release) :
  well_named (snd (parse_releases json_parse data old)) /\
  (forall members rel before after,
     missing_or_empty members "tag_name" ->
     release_of_json (Jobject members) = Returns rel ->
     json_parse data = Returns (Jarray (before ++ Jobject members :: after)) ->
     parse_releases json_parse data old
     = parse_releases_parsed (Returns (Jarray (before ++ after))) old) /\
  (forall members asset before after acc,
     missing_or_empty members "name" ->
     asset_of_json (Jobject members) = Returns asset ->
     parse_assets (before ++ Jobject members :: after) acc
     = parse_assets (before ++ after) acc).
Proof.
  split; [| split].
  - unfold parse_releases, parse_releases_parsed.
    destruct (json_parse data) as [j|e]; simpl.
    + apply parse_releases_loop_named. constructor.
    + constructor.
  - intros members rel before after Hmiss Hrel Hdata.
    unfold parse_releases. rewrite Hdata. unfold parse_releases_parsed. simpl.
    rewrite !parse_releases_loop_app.
    destruct (parse_releases_loop before []) as [[|] acc']; [| reflexivity].
    simpl. rewrite Hrel.
    rewrite (release_tag_missing_or_empty members rel Hmiss Hrel). reflexivity.
  - intros members asset before after acc Hmiss Hasset.
    rewrite !parse_assets_app.
    destruct (parse_assets before acc) as [acc'|e]; simpl; [| reflexivity].
    rewrite Hasset. simpl.
    rewrite (asset_name_missing_or_empty members asset Hmiss Hasset). reflexivity.
Qed.

Lemma decoder_keeps_named_records_witness :
  parse_releases (fun _ => Returns payload_with_untagged_record) "payload" sample_releases
  = (true, [ {| tag := "v1"; published_at := ""; assets := [] |} ]).
Proof.
  rewrite (proj1 (proj2 (decoder_keeps_named_records
                           (fun _ => Returns payload_with_untagged_record)
                           "payload" sample_releases))
             [("published_at", Jstring "2023-05-01T10:00:00Z")]
             {| tag := ""; published_at := "2023-05-01T10:00:00Z"; assets := [] |}
             [Jobject [("tag_name", Jstring "v1")]] []).
  - reflexivity.
  - left. reflexivity.
  - reflexivity.
  - reflexivity.
Defined.

(** ** Extraction *)

Example lexically_normal_samples :
  map fs.lexically_normal
    [ "foo/./bar/.."; "foo/.///bar/../"; "/dl/pkg/../../evil"; "/dl/pkg/a/./b";
      "a/.."; "../a"; "/.."; "/dl/pkg/" ]
  = [ "foo/"; "foo/"; "/evil"; "/dl/pkg/a/b"; "."; "../a"; "/"; "/dl/pkg/" ].
Proof. reflexivity. Qed.

Example extraction_directory :
  fs.append (fs.parent_path "/dl/pkg.7z") (fs.stem "/dl/pkg.7z") = "/dl/pkg".
Proof. reflexivity. Qed.

Example safe_join_accepts_inside :
  safe_join "/dl/pkg" "bin/../lib/libgcc.a" = inl "/dl/pkg/lib/libgcc.a".
Proof. reflexivity. Qed.

Example safe_join_blocks_climb :
  safe_join "/dl/pkg" "../../evil" = inr "Blocked path traversal in archive entry".
Proof. reflexivity. Qed.

(** C1, on an archive whose entry declares ["../pkg-evil/run.sh"], extracted
    into ["/dl/pkg"].  The joined path normalises to ["/dl/pkg-evil/run.sh"],
    which begins with the characters of ["/dl/pkg"], so [safe_join] lets it
    through: the extraction succeeds and the disk writer is handed a path
    that is not below the destination. *)
Theorem traversal_into_sibling_is_written :
  safe_join "/dl/pkg" "../pkg-evil/run.sh" = inl "/dl/pkg-evil/run.sh" /\
  fst (fst (extract_archive_to_dir plain_env sibling_archive "/dl/pkg" "" fresh_globals))
  = true /\
  written_paths
    (archive_ops (snd (extract_archive_to_dir plain_env sibling_archive "/dl/pkg" ""
                         fresh_globals)))
  = ["/dl/pkg-evil/run.sh"] /\
  ~ fs.within "/dl/pkg" "/dl/pkg-evil/run.sh".
Proof.
  repeat split; try (vm_compute; reflexivity).
  intros [k Hk]. vm_compute in Hk. discriminate.
Qed.

Lemma run_ops_ui ops g : ui (run_ops ops g) = ui g.
Proof. revert g. induction ops as [|op ops IH]; intros g; simpl; [| rewrite IH]; reflexivity. Qed.

Lemma run_ops_total ops g : gExtractTotal (run_ops ops g) = gExtractTotal g.
Proof. revert g. induction ops as [|op ops IH]; intros g; simpl; [| rewrite IH]; reflexivity. Qed.

Lemma copy_archive_data_ops bs last g :
  snd (copy_archive_data bs last g) = run_ops (copy_ops bs) g.
Proof.
  revert g. induction bs as [|b bs IH]; intros g; simpl.
  - destruct last; reflexivity.
  - destruct (block_write b); simpl; [apply IH | reflexivity].
Qed.

(** [copy_archive_data] fails exactly when a block is refused by the writer
    or the reader ends the data with an error. *)
Lemma copy_archive_data_fails bs last g :
  (exists e, fst (copy_archive_data bs last g) = write_failed e) <->
  (exists b e, In b bs /\ block_write b = write_failed e) \/ (exists e, last = read_failed e).
Proof.
  revert g. induction bs as [|b bs IH]; intros g; simpl.
  - destruct last as [|e]; simpl; split.
    + intros [e H]. discriminate.
    + intros [(b & e & [] & _) | [e H]]. discriminate.
    + intros _. right. eauto.
    + intros _. eauto.
  - destruct (block_write b) as [|e] eqn:E; simpl.
    + rewrite IH. split.
      * intros [(b' & e & Hin & Hb) | H]; [left | right; exact H].
        exists b', e. tauto.
      * intros [(b' & e & [<- | Hin] & Hb) | H]; [congruence | left | right; exact H].
        exists b', e. tauto.
    + split; [intros _ | eauto]. left. exists b, e. tauto.
Qed.

Lemma seqZ_succ_length m (k : nat) :
  seqZ m (Z.of_nat (S k)) = m :: seqZ (m + 1) (Z.of_nat k).
Proof.
  rewrite seqZ_cons by lia. f_equal. f_equal; lia.
Qed.

(** A loop that reads all its headers posts one completion per extractable
    entry, counting on from [doneCount]. *)
Lemma extractable_unfold entry :
  extractable entry =
  match pathname entry with
  | Some p => negb (string_empty p) && negb (fs.is_absolute p)
  | None => false
  end.
Proof. reflexivity. Qed.

Lemma extract_entries_exhausted base ar rest n g g' :
  extract_entries base ar rest n g = (headers_exhausted, g') ->
  ui g' = (ui g ++ map (post_update_extract_progress (gExtractTotal g))
                     (seqZ (n + 1) (Z.of_nat (length (List.filter extractable rest)))))%list
  /\ gExtractTotal g' = gExtractTotal g
  /\ (gExtractDone g = n ->
      gExtractDone g' = n + Z.of_nat (length (List.filter extractable rest))).
Proof.
  revert n g. induction rest as [|entry rest IH]; intros n g; simpl.
  - intros [= <-]. rewrite app_nil_r. repeat split. lia.
  - rewrite extractable_unfold. destruct (pathname entry) as [p|].
    2:{ intros H. apply IH in H. exact H. }
    destruct (string_empty p); simpl.
    { intros H. apply IH in H. exact H. }
    destruct (fs.is_absolute p); simpl.
    { intros H. apply IH in H. exact H. }
    destruct (safe_join base p) as [full|what]; [| discriminate].
    destruct (header_write entry) as [|e].
    + destruct (copy_archive_data _ _ _) as [[|e] g2] eqn:C; [| discriminate].
      intros H. apply IH in H.
      pose proof (copy_archive_data_ops (blocks entry) (data_end entry)
                    (archive_call (write_header full ARCHIVE_OK) g)) as Hops.
      rewrite C in Hops. simpl in Hops. subst g2.
      unfold post_extract_progress in H. simpl in H.
      rewrite run_ops_ui, run_ops_total in H. simpl in H.
      destruct H as (Hui & Htot & Hdone).
      rewrite seqZ_succ_length. simpl. rewrite Hui, <- app_assoc. simpl.
      repeat split; [exact Htot |]. intros _. rewrite Hdone by reflexivity. lia.
    + intros H. apply IH in H.
      unfold post_extract_progress in H. simpl in H.
      destruct H as (Hui & Htot & Hdone).
      rewrite seqZ_succ_length. simpl. rewrite Hui, <- app_assoc. simpl.
      repeat split; [exact Htot |]. intros _. rewrite Hdone by reflexivity. lia.
Qed.

(** The loop over a list of entries followed by more entries. *)
Lemma extract_entries_app base ar before rest n g g1 :
  extract_entries base ar before n g = (headers_exhausted, g1) ->
  extract_entries base ar (before ++ rest) n g
  = extract_entries base ar rest
      (n + Z.of_nat (length (List.filter extractable before))) g1.
Proof.
  revert n g. induction before as [|entry before IH]; intros n g; simpl.
  - intros [= <-]. f_equal. lia.
  - rewrite extractable_unfold. destruct (pathname entry) as [p|]; [| apply IH].
    destruct (string_empty p); simpl; [apply IH |].
    destruct (fs.is_absolute p); simpl; [apply IH |].
    destruct (safe_join base p) as [full|what]; [| discriminate].
    destruct (header_write entry) as [|e].
    + destruct (copy_archive_data _ _ _) as [[|e] g2]; [| discriminate].
      intros H. rewrite (IH _ _ H). f_equal. lia.
    + intros H. rewrite (IH _ _ H). f_equal. lia.
Qed.

(** An entry that declares an absolute path is skipped: its data is passed
    over, nothing is written, the counters stay, and the loop goes on. *)
Lemma absolute_entry_is_skipped base ar entry p rest n g :
  pathname entry = Some p -> fs.is_absolute p = true ->
  extract_entries base ar (entry :: rest) n g
  = extract_entries base ar rest n (archive_call read_data_skip g).
Proof.
  intros Hp Habs. simpl. rewrite Hp, Habs. destruct (string_empty p); reflexivity.
Qed.

(** The only exception [safe_join] throws. *)
Lemma safe_join_message base rel what :
  safe_join base rel = inr what -> what = "Blocked path traversal in archive entry".
Proof.
  unfold safe_join. destruct (_ || _); [intros [= <-]; reflexivity | discriminate].
Qed.

(** An entry that [safe_join] rejects aborts the extraction: the exception
    leaves the loop, the later entries are not read, and the extraction
    returns [false] with the message of the exception. *)
Lemma rejected_join_aborts env ar base entry p what before after err g g1 :
  create_directories_error env = None ->
  read_new_ok env = true -> write_disk_new_ok env = true -> open_ok ar = true ->
  entries ar = (before ++ entry :: after)%list ->
  extract_entries base ar before 0 (post_extract_progress (set_gExtractDone 0 g))
  = (headers_exhausted, g1) ->
  pathname entry = Some p -> string_empty p = false -> fs.is_absolute p = false ->
  safe_join base p = inr what ->
  extract_archive_to_dir env ar base err g
  = (false, "Blocked path traversal in archive entry", g1).
Proof.
  intros Hdir Hr Hw Ho Hent Hbefore Hp Hne Hrel Hjoin.
  unfold extract_archive_to_dir. rewrite Hdir, Hr, Hw, Ho, Hent. simpl.
  rewrite (extract_entries_app _ _ _ _ _ _ _ Hbefore). simpl.
  rewrite Hp, Hne, Hrel, Hjoin. rewrite (safe_join_message _ _ _ Hjoin). reflexivity.
Qed.



(** ** Counting and progress *)

Lemma count_fold_length (es : list archive_entry) (c : Z) :
  fold_left (fun count (_ : archive_entry) => count + 1) es c = c + Z.of_nat (length es).
Proof.
  revert c. induction es as [|e es IH]; intros c; simpl fold_left.
  - simpl. lia.
  - rewrite IH. simpl length. lia.
Qed.

Lemma count_archive_entries_valid env ar err :
  read_new_ok env = true -> open_ok ar = true -> headers_end ar = ARCHIVE_EOF ->
  count_archive_entries env ar err = (Z.of_nat (length (entries ar)), err).
Proof.
  intros Hr Ho He. unfold count_archive_entries. rewrite Hr, Ho, He. simpl.
  rewrite count_fold_length. reflexivity.
Qed.

Lemma completed_posts_app l1 l2 :
  completed_posts (l1 ++ l2) = (completed_posts l1 ++ completed_posts l2)%list.
Proof.
  induction l1 as [|ev l1 IH]; simpl; [reflexivity |].
  destruct ev; try exact IH. destruct (0 <? done); simpl; rewrite IH; reflexivity.
Qed.

Lemma completed_posts_seqZ total m (k : nat) :
  0 < m ->
  completed_posts (map (post_update_extract_progress total) (seqZ m (Z.of_nat k)))
  = seqZ m (Z.of_nat k).
Proof.
  revert m. induction k as [|k IH]; intros m Hm.
  - reflexivity.
  - rewrite seqZ_succ_length. simpl.
    destruct (Z.ltb_spec 0 m); [| lia]. rewrite IH by lia. reflexivity.
Qed.

Lemma percent_full (n : Z) : 0 < n -> (awake_update_extract_progress n n == 100)%Q.
Proof.
  intros Hn. unfold awake_update_extract_progress.
  destruct (Z.leb_spec n 0); [lia |].
  assert (~ inject_Z n == 0)%Q as Hnz.
  { unfold Qeq, inject_Z. simpl. lia. }
  field. exact Hnz.
Qed.

(** ** Transfer and cancellation *)

Lemma perform_cancelled path pre total now post g :
  gCancel g = true \/ In ev_cancel pre ->
  curl_easy_perform path (pre ++ ev_progress total now :: post) g
  = curl_easy_perform path (pre ++ [ev_progress total now]) g
  /\ fst (curl_easy_perform path (pre ++ ev_progress total now :: post) g) <> CURLE_OK.
Proof.
  revert g. induction pre as [|ev pre IH]; intros g Hset.
  - destruct Hset as [Hc | []]. simpl. unfold progress_callback. rewrite Hc.
    split; [reflexivity | discriminate].
  - destruct ev as [chunk stored | t n | | code]; simpl.
    + destruct (stored <? length chunk)%nat; [split; [reflexivity | discriminate] |].
      apply IH. destruct Hset as [Hc | [[=] | Hin]]; [left; exact Hc | right; exact Hin].
    + unfold progress_callback. destruct (gCancel g) eqn:Hc.
      { split; [reflexivity | discriminate]. }
      assert (In ev_cancel pre) as Hin
        by (destruct Hset as [[=] | [[=] | Hin]]; exact Hin).
      destruct (0 <? t); apply IH; right; exact Hin.
    + apply IH. left. reflexivity.
    + split; [reflexivity | discriminate].
Qed.

Lemma perform_keeps_archive_ops path events g :
  archive_ops (snd (curl_easy_perform path events g)) = archive_ops g.
Proof.
  revert g. induction events as [|ev events IH]; intros g; [reflexivity |].
  destruct ev as [chunk stored | t n | | code]; simpl.
  - destruct (stored <? length chunk)%nat; [reflexivity | rewrite IH; reflexivity].
  - unfold progress_callback. destruct (gCancel g); [reflexivity |].
    destruct (0 <? t); rewrite IH; reflexivity.
  - rewrite IH. reflexivity.
  - reflexivity.
Qed.

(** The file holds what was there plus a prefix of the bytes received. *)
Lemma perform_file path events g before :
  files g !! path = Some before ->
  exists added,
    files (snd (curl_easy_perform path events g)) !! path = Some (before ++ added)%list
    /\ added `prefix_of` received events.
Proof.
  revert g before. induction events as [|ev events IH]; intros g before Hf.
  - exists []. rewrite app_nil_r. split; [exact Hf | apply prefix_nil].
  - destruct ev as [chunk stored | t n | | code]; simpl.
    + assert (files (fwrite path (take stored chunk) g) !! path
              = Some (before ++ take stored chunk)%list) as Hw.
      { unfold fwrite. simpl. rewrite lookup_insert_eq, Hf. reflexivity. }
      destruct (Nat.ltb_spec stored (length chunk)).
      * exists (take stored chunk). split; [exact Hw |].
        apply prefix_app_r. exists (drop stored chunk). symmetry. apply take_drop.
      * rewrite take_ge in * by lia.
        destruct (IH _ _ Hw) as (added & Ha & Hp).
        exists (chunk ++ added)%list. rewrite app_assoc. split; [exact Ha |].
        apply prefix_app, Hp.
    + unfold progress_callback. destruct (gCancel g).
      { exists []. rewrite app_nil_r. split; [exact Hf | apply prefix_nil]. }
      destruct (0 <? t); apply IH; exact Hf.
    + apply IH. exact Hf.
    + exists []. rewrite app_nil_r. split; [exact Hf | apply prefix_nil].
Qed.

Lemma received_app l1 l2 : received (l1 ++ l2) = (received l1 ++ received l2)%list.
Proof.
  induction l1 as [|ev l1 IH]; [reflexivity |].
  destruct ev; simpl; rewrite IH, ?app_assoc; reflexivity.
Qed.

Example cancelled_download_outcome :
  gLastCurlResult (download_file cancelled_download "https://example.org/pkg.7z"
                     "/dl/pkg.7z" fresh_globals) = CURLE_ABORTED_BY_CALLBACK /\
  files (download_file cancelled_download "https://example.org/pkg.7z"
           "/dl/pkg.7z" fresh_globals) !! "/dl/pkg.7z"
  = Some [Byte.x50; Byte.x4b; Byte.x03; Byte.x04].
Proof. split; vm_compute; reflexivity. Qed.

(** C7. The transfer-info callback reads the cancellation flag first: with
    the flag set, a progress tick ends the transfer with
    [CURLE_ABORTED_BY_CALLBACK] and nothing that follows the tick is
    accepted.  For a download in which the flag is set before some tick, the
    stored result is not [CURLE_OK], the status to show is the failure one,
    no extraction is started, and the destination file is still there,
    holding a prefix of the bytes received before that tick. *)
Theorem cancel_aborts_at_next_tick
    (env : download_env) (url outPath : string) (g : globals)
    (pre post : list curl_event) (total now : Z) :
  curl_init_ok env = true ->
  fopen_ok env = true ->
  transfer env = (pre ++ ev_progress total now :: post)%list ->
  gCancel g = true \/ In ev_cancel pre ->
  let g' := download_file env url outPath g in
  (forall g0, gCancel g0 = true ->
     progress_callback total now g0 = (1, g0) /\
     curl_easy_perform outPath (ev_progress total now :: post) g0
     = (CURLE_ABORTED_BY_CALLBACK, g0)) /\
  gLastCurlResult g' <> CURLE_OK /\
  awake_download_done (gLastCurlResult g') = "Download failed or cancelled." /\
  List.last (ui g') (progress_value 0) = post_download_done (gLastCurlResult g') /\
  archive_ops g' = archive_ops g /\
  (exists content,
     files g' !! outPath = Some content /\ content `prefix_of` received pre).
Proof.
  intros Hinit Hopen Htr Hset g'.
  split.
  { intros g0 Hc. unfold curl_easy_perform, progress_callback. rewrite Hc. tauto. }
  subst g'. unfold download_file. rewrite Hinit, Hopen, Htr. simpl negb. cbv iota.
  set (opened := set_files (<[outPath:=[]]> (files g)) g).
  assert (gCancel opened = true \/ In ev_cancel pre) as Hset' by exact Hset.
  destruct (perform_cancelled outPath pre total now post opened Hset') as [Heq Hne].
  pose proof (perform_keeps_archive_ops outPath
                (pre ++ ev_progress total now :: post) opened) as Hops.
  assert (files opened !! outPath = Some []) as Hf
    by (subst opened; simpl; apply lookup_insert_eq).
  destruct (perform_file outPath (pre ++ [ev_progress total now]) opened [] Hf)
    as (content & Hc & Hp).
  rewrite <- Heq in Hc. rewrite received_app in Hp. simpl in Hp, Hc.
  rewrite app_nil_r in Hp.
  destruct (curl_easy_perform outPath _ opened) as [res g1]. simpl in Hne, Hops, Hc.
  destruct (Z.eqb_spec res CURLE_OK) as [->|Hres]; [congruence |].
  simpl. repeat split.
  - exact Hres.
  - unfold awake_download_done. destruct (Z.eqb_spec res 0); [contradiction | reflexivity].
  - rewrite last_last. reflexivity.
  - exact Hops.
  - exists content. split; [exact Hc | exact Hp].
Qed.

Lemma cancel_aborts_at_next_tick_witness :
  gLastCurlResult (download_file cancelled_download "https://example.org/pkg.7z"
                     "/dl/pkg.7z" fresh_globals) <> CURLE_OK /\
  archive_ops (download_file cancelled_download "https://example.org/pkg.7z"
                 "/dl/pkg.7z" fresh_globals) = [].
Proof.
  destruct (cancel_aborts_at_next_tick cancelled_download "https://example.org/pkg.7z"
              "/dl/pkg.7z" fresh_globals
              [ ev_progress 6 0; ev_data [Byte.x50; Byte.x4b] 2; ev_progress 6 2;
                ev_cancel; ev_data [Byte.x03; Byte.x04] 2 ]
              [ ev_data [Byte.x14; Byte.x00] 2; ev_progress 6 6 ] 6 4
              eq_refl eq_refl eq_refl
              (or_intror (or_intror (or_intror (or_intror (or_introl eq_refl))))))
    as (_ & Hres & _ & _ & Hops & _).
  split; [exact Hres | exact Hops].
Defined.

(** ** The asset list and its index map *)

Lemma rebuild_loop_rows gFilters rest i acc :
  gAssets (rebuild_loop gFilters rest i acc)
  = (gAssets acc ++ matching_names gFilters rest)%list.
Proof.
  revert i acc. induction rest as [|a rest IH]; intros i acc; simpl.
  - rewrite app_nil_r. reflexivity.
  - rewrite IH. destruct (asset_matches gFilters a); simpl.
    + rewrite <- app_assoc. reflexivity.
    + reflexivity.
Qed.

(** The list built for a release in range. *)
Lemma rebuild_in_range gReleases gFilters r_idx rel :
  0 <= r_idx -> gReleases !! Z.to_nat r_idx = Some rel ->
  rebuild_asset_list_for_release gReleases gFilters r_idx
  = {| gAssets := matching_names gFilters (assets rel);
       gAssetIndexMap := matching_indices gFilters (assets rel) 0 |}.
Proof.
  intros Hr Hrel. unfold rebuild_asset_list_for_release.
  pose proof (lookup_lt_Some _ _ _ Hrel) as Hlt.
  destruct (Z.ltb_spec r_idx 0); [lia |].
  destruct (Z.geb_spec r_idx (Z.of_nat (length gReleases))); [lia |].
  simpl. rewrite Hrel.
  pose proof (rebuild_loop_rows gFilters (assets rel) 0
                {| gAssets := []; gAssetIndexMap := [] |}) as Hrows.
  pose proof (rebuild_loop_index_map gFilters (assets rel) 0
                {| gAssets := []; gAssetIndexMap := [] |}) as Hmap.
  destruct (rebuild_loop _ _ _ _) as [rows idxs]. simpl in *. congruence.
Qed.

(** The list built for a release out of range. *)
Lemma rebuild_out_of_range gReleases gFilters r_idx :
  r_idx < 0 \/ gReleases !! Z.to_nat r_idx = None ->
  rebuild_asset_list_for_release gReleases gFilters r_idx
  = {| gAssets := []; gAssetIndexMap := [] |}.
Proof.
  intros H. unfold rebuild_asset_list_for_release.
  destruct ((r_idx <? 0) || (r_idx >=? Z.of_nat (length gReleases))) eqn:E; [reflexivity |].
  destruct H as [H | ->]; [| reflexivity].
  apply orb_false_iff in E. destruct E as [E _]. apply Z.ltb_ge in E. lia.
Qed.

Lemma matching_lookup gFilters rest i k j :
  matching_indices gFilters rest i !! k = Some j ->
  i <= j /\
  exists a, rest !! Z.to_nat (j - i) = Some a /\ asset_matches gFilters a = true
            /\ matching_names gFilters rest !! k = Some (name a).
Proof.
  revert i k. induction rest as [|a rest IH]; intros i k; simpl; [discriminate |].
  destruct (asset_matches gFilters a) eqn:E.
  - destruct k as [|k]; simpl.
    + intros [= <-]. split; [lia |]. exists a. rewrite Z.sub_diag. auto.
    + intros H. apply IH in H. destruct H as (Hle & b & Hb & Hm & Hn).
      split; [lia |]. exists b. split; [| auto].
      replace (Z.to_nat (j - i)) with (S (Z.to_nat (j - (i + 1)))) by lia. exact Hb.
  - intros H. apply IH in H. destruct H as (Hle & b & Hb & Hm & Hn).
    split; [lia |]. exists b. split; [| auto].
    replace (Z.to_nat (j - i)) with (S (Z.to_nat (j - (i + 1)))) by lia. exact Hb.
Qed.

Lemma matching_lengths gFilters rest i :
  length (matching_names gFilters rest) = length (matching_indices gFilters rest i).
Proof.
  revert i. induction rest as [|a rest IH]; intros i; simpl; [reflexivity |].
  destruct (asset_matches gFilters a); simpl; rewrite (IH (i + 1)); reflexivity.
Qed.

(** X1. Rows and index map agree: they have the same length, and the index
    stored for a row is the position, in the assets of the release, of an
    asset that matches the filters and whose name is the text of the row. *)
Theorem rows_agree_with_index_map
    (gReleases : list Release) (gFilters : Filters) (r_idx : Z) :
  let l := rebuild_asset_list_for_release gReleases gFilters r_idx in
  length (gAssets l) = length (gAssetIndexMap l) /\
  (forall (k : nat) (j : Z),
     gAssetIndexMap l !! k = Some j ->
     0 <= j /\
     exists rel a,
       gReleases !! Z.to_nat r_idx = Some rel /\
       assets rel !! Z.to_nat j = Some a /\
       asset_matches gFilters a = true /\
       gAssets l !! k = Some (name a)).
Proof.
  intros l. subst l.
  destruct (Z.ltb_spec r_idx 0) as [Hneg | Hpos].
  { rewrite rebuild_out_of_range by tauto. simpl. split; [reflexivity | discriminate]. }
  destruct (gReleases !! Z.to_nat r_idx) as [rel|] eqn:Hrel.
  2:{ rewrite rebuild_out_of_range by tauto. simpl. split; [reflexivity | discriminate]. }
  rewrite (rebuild_in_range _ _ _ _ Hpos Hrel). simpl. split.
  - apply matching_lengths.
  - intros k j Hk. apply matching_lookup in Hk.
    destruct Hk as (Hle & a & Ha & Hm & Hn). split; [lia |].
    exists rel, a. rewrite Z.sub_0_r in Ha. auto.
Qed.

Lemma matching_indices_from gFilters rest i :
  Forall (fun j => i <= j < i + Z.of_nat (length rest)) (matching_indices gFilters rest i).
Proof.
  revert i. induction rest as [|a rest IH]; intros i; simpl; [constructor |].
  assert (Forall (fun j => i <= j < i + Z.of_nat (S (length rest)))
                 (matching_indices gFilters rest (i + 1))) as Htl.
  { eapply Forall_impl; [apply IH |]. simpl. intros j Hj. lia. }
  destruct (asset_matches gFilters a); [constructor; [lia | exact Htl] | exact Htl].
Qed.

Lemma matching_indices_sorted gFilters rest i :
  StronglySorted Z.lt (matching_indices gFilters rest i).
Proof.
  revert i. induction rest as [|a rest IH]; intros i; simpl; [constructor |].
  destruct (asset_matches gFilters a); [| apply IH].
  constructor; [apply IH |].
  eapply Forall_impl; [apply matching_indices_from |]. simpl. intros j Hj. lia.
Qed.

(** X2. The index map is strictly increasing, so it holds no index twice and
    keeps the order of the release, and each of its indices is a position in
    the assets of the selected release. *)
Theorem index_map_increasing_in_range
    (gReleases : list Release) (gFilters : Filters) (r_idx : Z) :
  let l := rebuild_asset_list_for_release gReleases gFilters r_idx in
  StronglySorted Z.lt (gAssetIndexMap l) /\
  Forall (fun j => exists rel, gReleases !! Z.to_nat r_idx = Some rel
                               /\ 0 <= j < Z.of_nat (length (assets rel)))
         (gAssetIndexMap l).
Proof.
  intros l. subst l.
  destruct (Z.ltb_spec r_idx 0) as [Hneg | Hpos].
  { rewrite rebuild_out_of_range by tauto. simpl. split; constructor. }
  destruct (gReleases !! Z.to_nat r_idx) as [rel|] eqn:Hrel.
  2:{ rewrite rebuild_out_of_range by tauto. simpl. split; constructor. }
  rewrite (rebuild_in_range _ _ _ _ Hpos Hrel). simpl. split.
  - apply matching_indices_sorted.
  - eapply Forall_impl; [apply matching_indices_from |]. simpl.
    intros j Hj. exists rel. split; [reflexivity | lia].
Qed.

Lemma matching_indices_complete gFilters rest i (n : nat) a :
  rest !! n = Some a -> asset_matches gFilters a = true ->
  In (i + Z.of_nat n) (matching_indices gFilters rest i).
Proof.
  revert i n. induction rest as [|b rest IH]; intros i n; [discriminate |].
  destruct n as [|n]; simpl.
  - intros [= ->] ->. left. lia.
  - intros Ha Hm. specialize (IH (i + 1) n Ha Hm).
    replace (i + 1 + Z.of_nat n) with (i + Z.pos (Pos.of_succ_nat n)) in IH by lia.
    destruct (asset_matches gFilters b); [right |]; exact IH.
Qed.

(** X3. The index map holds exactly the positions of the matching assets:
    a position of the selected release is in the map if and only if the
    asset there matches the filters. *)
Theorem index_map_exactly_matching
    (gReleases : list Release) (gFilters : Filters) (r_idx : Z) (rel : Release)
    (n : nat) (a : Asset) :
  0 <= r_idx ->
  gReleases !! Z.to_nat r_idx = Some rel ->
  assets rel !! n = Some a ->
  (In (Z.of_nat n)
      (gAssetIndexMap (rebuild_asset_list_for_release gReleases gFilters r_idx))
   <-> asset_matches gFilters a = true).
Proof.
  intros Hpos Hrel Ha. rewrite (rebuild_in_range _ _ _ _ Hpos Hrel). simpl. split.
  - intros Hin. apply (In_nth_error) in Hin. destruct Hin as [k Hk].
    assert (matching_indices gFilters (assets rel) 0 !! k = Some (Z.of_nat n)) as Hk'.
    { rewrite <- Hk. clear. revert k.
      induction (matching_indices gFilters (assets rel) 0) as [|x l IH]; intros [|k];
        simpl; auto. }
    apply matching_lookup in Hk'. destruct Hk' as (_ & b & Hb & Hm & _).
    rewrite Z.sub_0_r, Nat2Z.id in Hb. congruence.
  - intros Hm. apply (matching_indices_complete gFilters _ 0 n a Ha Hm).
Qed.

Lemma index_map_exactly_matching_witness :
  In 2 (gAssetIndexMap (rebuild_asset_list_for_release sample_releases only_i686 0))
  <-> asset_matches only_i686
        (asset_named "i686-13.1.0-release-win32-dwarf-msvcrt-rt_v11-rev1.7z") = true.
Proof.
  exact (index_map_exactly_matching sample_releases only_i686 0 _ 2%nat _
           (Z.le_refl 0) eq_refl eq_refl).
Defined.

Lemma matching_default_all rest i :
  matching_indices Filters_default rest i = seqZ i (Z.of_nat (length rest))
  /\ matching_names Filters_default rest = map name rest.
Proof.
  revert i. induction rest as [|a rest IH]; intros i; [split; reflexivity |].
  cbn [matching_indices matching_names].
  replace (asset_matches Filters_default a) with true by reflexivity.
  destruct (IH (i + 1)) as [-> ->]. split; [| reflexivity].
  cbn [length]. rewrite (seqZ_succ_length i (length rest)). reflexivity.
Qed.

(** X4. With no filter set, the list of a release in range is the whole
    release: every asset name in order, and the index map 0, 1, ..., n-1. *)
Theorem unfiltered_list_is_whole_release
    (gReleases : list Release) (r_idx : Z) (rel : Release) :
  0 <= r_idx ->
  gReleases !! Z.to_nat r_idx = Some rel ->
  rebuild_asset_list_for_release gReleases Filters_default r_idx
  = {| gAssets := map name (assets rel);
       gAssetIndexMap := seqZ 0 (Z.of_nat (length (assets rel))) |}.
Proof.
  intros Hpos Hrel. rewrite (rebuild_in_range _ _ _ _ Hpos Hrel).
  destruct (matching_default_all (assets rel) 0) as [-> ->]. reflexivity.
Qed.

Lemma unfiltered_list_is_whole_release_witness :
  rebuild_asset_list_for_release sample_releases Filters_default 0
  = {| gAssets := map name (assets (List.hd {| tag := ""; published_at := ""; assets := [] |}
                                       sample_releases));
       gAssetIndexMap := seqZ 0 3 |}.
Proof.
  exact (unfiltered_list_is_whole_release sample_releases 0 _ (Z.le_refl 0) eq_refl).
Defined.

(** ** Callbacks of the window *)

Lemma arch_of_choice_twice v old :
  arch_of_choice v (arch_of_choice v old) = arch_of_choice v old.
Proof. destruct v as [|[[]|[]|]|]; reflexivity. Qed.

Lemma mrt_of_choice_twice v old :
  mrt_of_choice v (mrt_of_choice v old) = mrt_of_choice v old.
Proof. destruct v as [|[[]|[]|]|]; reflexivity. Qed.

Lemma exc_of_choice_twice v old :
  exc_of_choice v (exc_of_choice v old) = exc_of_choice v old.
Proof. destruct v as [|[[]|[]|]|]; reflexivity. Qed.

Lemma crt_of_choice_twice v old :
  crt_of_choice v (crt_of_choice v old) = crt_of_choice v old.
Proof. destruct v as [|[[]|[]|]|]; reflexivity. Qed.

Lemma rt_of_choice_twice v old :
  rt_of_choice v (rt_of_choice v old) = rt_of_choice v old.
Proof. destruct v as [|[[]|[]|]|]; reflexivity. Qed.

(** X5. Running [on_filters_changed] again with the choices untouched
    changes nothing: the filters, the rows and the index map stay as the
    first run left them, also when a choice holds a value without a case. *)
Theorem on_filters_changed_idempotent (st : app) :
  on_filters_changed (on_filters_changed st) = on_filters_changed st.
Proof.
  unfold on_filters_changed, rebuild_in, with_shown, with_filters. simpl.
  rewrite arch_of_choice_twice, mrt_of_choice_twice, exc_of_choice_twice,
    crt_of_choice_twice, rt_of_choice_twice. reflexivity.
Qed.

(** What the callbacks leave behind: the browser in step with the selected
    release and the filters. *)
Lemma callbacks_keep_list_in_step st :
  list_in_step (on_release_changed st) /\
  list_in_step (on_filters_changed st) /\
  list_in_step (on_reset_filters st) /\
  (app_gReleases st <> [] -> list_in_step (populate_release_choice st)).
Proof.
  repeat split. intros Hne. unfold populate_release_choice.
  destruct (app_gReleases st) eqn:E; [congruence |]. unfold list_in_step. simpl.
  rewrite ?E. reflexivity.
Qed.

(** The asset behind a selected row of a browser that is in step. *)
Lemma shown_row_asset st :
  list_in_step st ->
  0 <= gRelease_value st ->
  1 <= gAssets_value st <= Z.of_nat (length (gAssets (shown st))) ->
  exists rel asset j,
    app_gReleases st !! Z.to_nat (gRelease_value st) = Some rel /\
    0 <= j /\
    assets rel !! Z.to_nat j = Some asset /\
    asset_matches (app_gFilters st) asset = true /\
    gAssets (shown st) !! Z.to_nat (gAssets_value st - 1) = Some (name asset) /\
    gAssetIndexMap (shown st) !! Z.to_nat (gAssets_value st - 1) = Some j /\
    length (gAssets (shown st)) = length (gAssetIndexMap (shown st)).
Proof.
  intros Hstep Hr Hrow. unfold list_in_step in Hstep.
  destruct (app_gReleases st !! Z.to_nat (gRelease_value st)) as [rel|] eqn:Hrel.
  2:{ rewrite rebuild_out_of_range in Hstep by tauto. rewrite Hstep in Hrow.
      simpl in Hrow. lia. }
  rewrite (rebuild_in_range _ _ _ _ Hr Hrel) in Hstep. rewrite Hstep in *. simpl in *.
  pose proof (matching_lengths (app_gFilters st) (assets rel) 0) as Hlen.
  destruct (lookup_lt_is_Some_2 (matching_indices (app_gFilters st) (assets rel) 0)
              (Z.to_nat (gAssets_value st - 1))) as [j Hj]; [lia |].
  destruct (matching_lookup _ _ _ _ _ Hj) as (Hle & a & Ha & Hm & Hn).
  rewrite Z.sub_0_r in Ha. exists rel, a, j. auto 10.
Qed.

(** ** Fetching and refreshing *)

Lemma append_assoc (a b c : string) : (a +:+ b) +:+ c = a +:+ (b +:+ c).
Proof.
  induction a as [|x a IH]; [reflexivity |].
  rewrite !append_cons, IH. reflexivity.
Qed.

Lemma append_empty_r (a : string) : a +:+ "" = a.
Proof. induction a as [|x a IH]; [reflexivity |]. rewrite append_cons, IH. reflexivity. Qed.

Lemma fetch_perform_spec events response :
  fetch_perform events response
  = (if fetch_fails events
     then fetch_perform events response
     else (CURLE_OK, response +:+ fetched events))
  /\ (fetch_fails events = true -> fst (fetch_perform events response) <> CURLE_OK).
Proof.
  revert response. induction events as [|ev events IH]; intros response.
  - simpl. rewrite append_empty_r. split; [reflexivity | discriminate].
  - destruct ev as [contents | code]; simpl.
    + rewrite Nat.eqb_refl. destruct (IH (response +:+ contents)) as [IH1 IH2].
      split; [| exact IH2].
      destruct (fetch_fails events); [reflexivity |].
      rewrite IH1, append_assoc. reflexivity.
    + split; [reflexivity | discriminate].
Qed.

Lemma fetch_releases_json_cases (env : fetch_env) :
  fetch_releases_json env
  = if fetch_init_ok env && negb (fetch_fails (fetch_events env))
    then fetched (fetch_events env) else "".
Proof.
  unfold fetch_releases_json. destruct (fetch_init_ok env); [| reflexivity]. simpl.
  destruct (fetch_perform_spec (fetch_events env) "") as [H1 H2].
  destruct (fetch_fails (fetch_events env)); simpl.
  - destruct (fetch_perform (fetch_events env) "") as [res response].
    simpl in H2. destruct (Z.eqb_spec res CURLE_OK); [| reflexivity].
    exfalso. apply H2; [reflexivity | assumption].
  - rewrite H1. reflexivity.
Qed.

(** X7. A fetch hands over the whole body or nothing: the result is the
    concatenation of everything received when the handle was created and the
    transfer did not fail, and the empty string otherwise, whatever part of
    the body had already arrived. *)
Theorem fetch_whole_body_or_nothing (env : fetch_env) :
  (fetch_init_ok env = true -> fetch_fails (fetch_events env) = false ->
   fetch_releases_json env = fetched (fetch_events env)) /\
  (fetch_init_ok env = false \/ fetch_fails (fetch_events env) = true ->
   fetch_releases_json env = "").
Proof.
  rewrite fetch_releases_json_cases. split.
  - intros -> ->. reflexivity.
  - intros [-> | ->]; [reflexivity |]. rewrite andb_false_r. reflexivity.
Qed.

Lemma fetch_whole_body_or_nothing_witness :
  fetch_releases_json
    {| fetch_init_ok := true;
       fetch_events := [fetch_data "[{"; fetch_fail 56; fetch_data "}]"] |} = "".
Proof.
  apply (proj2 (fetch_whole_body_or_nothing _)). right. reflexivity.
Defined.

(** X8. A refresh whose fetch gives the empty string, because the transfer
    failed or because the body was empty, is reported as a network error:
    the decoder is not run, and the collection, the release choice and the
    browser stay as they were. *)
Theorem refresh_without_body_changes_nothing
    (json_parse : string -> throws json) (env : fetch_env) (st : app) :
  fetch_init_ok env = false \/ fetch_fails (fetch_events env) = true
  \/ fetched (fetch_events env) = "" ->
  let st' := on_refresh json_parse env st in
  gStatus st' = "Network error." /\
  app_gReleases st' = app_gReleases st /\
  gRelease_items st' = gRelease_items st /\
  gRelease_value st' = gRelease_value st /\
  shown st' = shown st /\
  app_gFilters st' = app_gFilters st.
Proof.
  intros H st'. subst st'. unfold on_refresh, on_refresh_thread.
  assert (fetch_releases_json env = "") as ->.
  { rewrite fetch_releases_json_cases.
    destruct H as [-> | [-> | ->]]; [reflexivity | |].
    - rewrite andb_false_r. reflexivity.
    - destruct (_ && _); reflexivity. }
  simpl. repeat split.
Qed.

Lemma refresh_without_body_changes_nothing_witness :
  gStatus (on_refresh reject_all {| fetch_init_ok := true; fetch_events := [] |} sample_app)
  = "Network error." /\
  app_gReleases (on_refresh reject_all {| fetch_init_ok := true; fetch_events := [] |}
                   sample_app)
  = app_gReleases sample_app.
Proof.
  destruct (refresh_without_body_changes_nothing reject_all
              {| fetch_init_ok := true; fetch_events := [] |} sample_app
              (or_intror (or_intror eq_refl))) as (Hs & Hr & _).
  split; [exact Hs | exact Hr].
Defined.


Lemma parse_releases_parsed_named parsed old :
  well_named (snd (parse_releases_parsed parsed old)).
Proof.
  unfold parse_releases_parsed. destruct parsed as [j|e]; simpl.
  - apply parse_releases_loop_named. constructor.
  - constructor.
Qed.

(** X9. A refresh that decodes its payload stores the decoded releases,
    fills the release choice with one label per stored release in order, and
    reports success.  With at least one release it selects the first and
    leaves the browser in step with it; with none it selects nothing and
    leaves the rows of the browser as they were. *)
Theorem successful_refresh_repopulates
    (json_parse : string -> throws json) (env : fetch_env) (st : app)
    (rels : list Release) :
  string_empty (fetch_releases_json env) = false ->
  parse_releases json_parse (fetch_releases_json env) (app_gReleases st) = (true, rels) ->
  let st' := on_refresh json_parse env st in
  gStatus st' = "Releases loaded." /\
  app_gReleases st' = rels /\
  well_named rels /\
  gRelease_items st' = map release_label rels /\
  (rels <> [] -> gRelease_value st' = 0 /\ list_in_step st') /\
  (rels = [] -> gRelease_value st' = -1 /\ shown st' = shown st).
Proof.
  intros Hdata Hparse st'. subst st'.
  assert (well_named rels) as Hnamed.
  { pose proof (parse_releases_parsed_named
                  (json_parse (fetch_releases_json env)) (app_gReleases st)) as H.
    unfold parse_releases in Hparse. rewrite Hparse in H. exact H. }
  unfold on_refresh, on_refresh_thread. rewrite Hdata. simpl app_gReleases.
  rewrite Hparse. simpl negb. cbv iota.
  unfold awake_refresh_done. simpl gRefreshStage. cbv iota.
  unfold populate_release_choice. simpl app_gReleases.
  destruct rels as [|r rels]; simpl.
  - repeat split; try assumption; congruence.
  - repeat split; try assumption; congruence.
Qed.

Lemma successful_refresh_repopulates_witness :
  gRelease_items (on_refresh accept_untagged garbled_fetch sample_app)
  = map release_label [ {| tag := "v1"; published_at := ""; assets := [] |} ] /\
  list_in_step (on_refresh accept_untagged garbled_fetch sample_app).
Proof.
  destruct (successful_refresh_repopulates accept_untagged garbled_fetch sample_app
              [ {| tag := "v1"; published_at := ""; assets := [] |} ] eq_refl eq_refl)
    as (_ & _ & _ & Hitems & Hsome & _).
  split; [exact Hitems |]. apply Hsome. discriminate.
Defined.

(** X10. A refresh whose payload [json::parse] rejects leaves the window out
    of step: the status reports the parse error, the collection is empty,
    and the release choice and the browser still show the old lists with
    their selection.  A download started on that selection then indexes the
    empty collection out of range. *)
Theorem failed_refresh_leaves_stale_selection
    (json_parse : string -> throws json) (env : fetch_env) (st : app)
    (e : json_exception) (extract_after : bool) (picked : string) :
  list_in_step st ->
  0 <= gRelease_value st ->
  1 <= gAssets_value st <= Z.of_nat (length (gAssets (shown st))) ->
  string_empty (fetch_releases_json env) = false ->
  json_parse (fetch_releases_json env) = Throws e ->
  let st' := on_refresh json_parse env st in
  gStatus st' = "JSON parse error." /\
  app_gReleases st' = [] /\
  gRelease_items st' = gRelease_items st /\
  gRelease_value st' = gRelease_value st /\
  shown st' = shown st /\
  gAssets_value st' = gAssets_value st /\
  start_download extract_after picked st' = out_of_range.
Proof.
  intros Hstep Hr Hrow Hdata Hparse st'. subst st'.
  destruct (shown_row_asset st Hstep Hr Hrow)
    as (rel & asset & j & Hrel & Hj0 & Ha & Hm & Hn & Hj & Hlen).
  unfold on_refresh, on_refresh_thread. rewrite Hdata.
  unfold parse_releases. rewrite Hparse. simpl.
  repeat split. unfold start_download. simpl.
  destruct (Z.ltb_spec (gRelease_value st) 0); [lia |].
  destruct (Z.leb_spec (gAssets_value st) 0); [lia |]. simpl.
  destruct (gAssetIndexMap (shown st)) as [|x tail] eqn:Hmap; [discriminate |].
  destruct (Z.leb_spec (Z.of_nat (length (x :: tail))) (gAssets_value st - 1)); [lia |].
  reflexivity.
Qed.

Lemma failed_refresh_leaves_stale_selection_witness :
  app_gReleases (on_refresh reject_all garbled_fetch sample_app) = [] /\
  shown (on_refresh reject_all garbled_fetch sample_app) = shown sample_app /\
  start_download false "C:/dl" (on_refresh reject_all garbled_fetch sample_app)
  = out_of_range.
Proof.
  assert (1 <= gAssets_value sample_app
          <= Z.of_nat (length (gAssets (shown sample_app)))) as Hrow
    by (vm_compute; split; discriminate).
  destruct (failed_refresh_leaves_stale_selection reject_all garbled_fetch sample_app
              parse_error false "C:/dl" eq_refl (Z.le_refl 0) Hrow eq_refl eq_refl)
    as (_ & Hrels & _ & _ & Hshown & _ & Hstart).
  split; [exact Hrels |]. split; [exact Hshown | exact Hstart].
Defined.

(** ** More on the attribute parser *)

Lemma has_token_reflect s tok : reflect (occurs_in tok s) (has_token s tok).
Proof.
  destruct (has_token s tok) eqn:E; constructor.
  - apply has_token_true, E.
  - apply has_token_false, E.
Qed.

(** X11. Thread model, exception model and C runtime are decided by which
    delimited tokens occur anywhere in the name, the first in the order of
    the source winning: ["-posix-"] before ["-win32-"] before ["-mcf-"],
    ["-seh-"] before ["-dwarf-"], ["-ucrt-"] before ["-msvcrt-"]. *)
Theorem parse_token_priority (name : string) :
  (mrt (parse_asset_name name) = MRT_Posix <-> occurs_in "-posix-" name) /\
  (mrt (parse_asset_name name) = MRT_Win32
   <-> ~ occurs_in "-posix-" name /\ occurs_in "-win32-" name) /\
  (mrt (parse_asset_name name) = MRT_Mcf
   <-> ~ occurs_in "-posix-" name /\ ~ occurs_in "-win32-" name /\ occurs_in "-mcf-" name) /\
  (exc (parse_asset_name name) = EXC_Seh <-> occurs_in "-seh-" name) /\
  (exc (parse_asset_name name) = EXC_Dwarf
   <-> ~ occurs_in "-seh-" name /\ occurs_in "-dwarf-" name) /\
  (crt (parse_asset_name name) = CRT_Ucrt <-> occurs_in "-ucrt-" name) /\
  (crt (parse_asset_name name) = CRT_Msvcrt
   <-> ~ occurs_in "-ucrt-" name /\ occurs_in "-msvcrt-" name).
Proof.
  unfold parse_asset_name; simpl.
  destruct (has_token_reflect name "-posix-"), (has_token_reflect name "-win32-"),
    (has_token_reflect name "-mcf-"), (has_token_reflect name "-seh-"),
    (has_token_reflect name "-dwarf-"), (has_token_reflect name "-ucrt-"),
    (has_token_reflect name "-msvcrt-");
    repeat split; intros; try tauto; try discriminate; try reflexivity.
Qed.

(** X12. The runtime version is V13 exactly when ["-rt_v13-"] or
    ["-rt_v13."] occurs in the name; any other version marker, and a marker
    that ends the name, leaves it at Any. *)
Theorem parse_runtime_version (name : string) :
  rt (parse_asset_name name) = RT_V13
  <-> occurs_in "-rt_v13-" name \/ occurs_in "-rt_v13." name.
Proof.
  unfold parse_asset_name; simpl.
  destruct (has_token_reflect name "-rt_v13-"), (has_token_reflect name "-rt_v13.");
    simpl; split; intros; try tauto; try discriminate; try reflexivity.
Qed.

(** ** More on the metadata decoder *)

Lemma parse_assets_info elems acc l :
  Forall (fun a => info a = parse_asset_name (name a)) acc ->
  parse_assets elems acc = Returns l ->
  Forall (fun a => info a = parse_asset_name (name a)) l.
Proof.
  revert acc. induction elems as [|a rest IH]; intros acc Hacc; simpl.
  - intros [= <-]. exact Hacc.
  - destruct (asset_of_json a) as [asset|e] eqn:E; simpl; [| discriminate].
    apply IH. destruct (string_empty (name asset)); [exact Hacc |].
    apply Forall_app. split; [exact Hacc |]. constructor; [| constructor].
    unfold asset_of_json in E. revert E. repeat step_throws.
    intros [= <-]. reflexivity.
Qed.

Lemma release_of_json_info r rel :
  release_of_json r = Returns rel ->
  Forall (fun a => info a = parse_asset_name (name a)) (assets rel).
Proof.
  unfold release_of_json.
  destruct (nlohmann.value_string r "tag_name" "") as [t|]; simpl; [| discriminate].
  destruct (nlohmann.value_string r "published_at" "") as [p|]; simpl; [| discriminate].
  destruct (nlohmann.contains r "assets" && nlohmann.is_array (nlohmann.at_key r "assets")).
  - destruct (parse_assets _ _) as [l|] eqn:E; simpl; [| discriminate].
    intros [= <-]. simpl. eapply parse_assets_info; [| exact E]. constructor.
  - simpl. intros [= <-]. constructor.
Qed.

Lemma parse_releases_loop_info elems acc :
  info_from_name acc -> info_from_name (snd (parse_releases_loop elems acc)).
Proof.
  revert acc. induction elems as [|r rest IH]; intros acc Hacc; simpl.
  - exact Hacc.
  - destruct (release_of_json r) as [rel|e] eqn:E; simpl; [| exact Hacc].
    apply IH. destruct (string_empty (tag rel)); [exact Hacc |].
    apply Forall_app. split; [exact Hacc |].
    constructor; [| constructor]. eapply release_of_json_info, E.
Qed.

(** X13. After every run of the decoder, every stored asset carries the
    attributes parsed from its own name: the filter never sees attributes
    that belong to another name or were left at their defaults. *)
Theorem stored_info_is_parsed_name
    (json_parse : string -> throws json) (data : string) (old : list Release) :
  Forall (fun r => Forall (fun a => info a = parse_asset_name (name a)) (assets r))
         (snd (parse_releases json_parse data old)).
Proof.
  unfold parse_releases, parse_releases_parsed.
  destruct (json_parse data) as [j|e]; simpl.
  - apply (parse_releases_loop_info (nlohmann.items j) []). constructor.
  - constructor.
Qed.

Lemma parse_releases_loop_decoded elems rels acc :
  Forall2 (fun r rel => release_of_json r = Returns rel) elems rels ->
  parse_releases_loop elems acc = (true, (acc ++ List.filter has_tag rels)%list).
Proof.
  intros H. revert acc. induction H as [|r rel elems rels Hr _ IH]; intros acc; simpl.
  - rewrite app_nil_r. reflexivity.
  - rewrite Hr, IH. unfold has_tag at 2. destruct (string_empty (tag rel)); simpl.
    + reflexivity.
    + rewrite <- app_assoc. reflexivity.
Qed.

Lemma parse_releases_loop_true elems acc stored :
  parse_releases_loop elems acc = (true, stored) ->
  exists rels, Forall2 (fun r rel => release_of_json r = Returns rel) elems rels.
Proof.
  revert acc. induction elems as [|r rest IH]; intros acc; simpl.
  - intros _. exists []. constructor.
  - destruct (release_of_json r) as [rel|e] eqn:E; [| discriminate].
    intros H. apply IH in H. destruct H as [rels H]. exists (rel :: rels).
    constructor; assumption.
Qed.

(** X14. The decoder succeeds exactly when every element of the document
    decodes to a release without a type error, and then the collection is
    those releases in the order of the document, the ones with an empty tag
    left out. *)
Theorem decode_succeeds_iff_all_records_decode (j : json) (old : list Release) :
  (fst (parse_releases_parsed (Returns j) old) = true <->
   exists rels,
     Forall2 (fun r rel => release_of_json r = Returns rel) (nlohmann.items j) rels) /\
  (forall rels,
     Forall2 (fun r rel => release_of_json r = Returns rel) (nlohmann.items j) rels ->
     parse_releases_parsed (Returns j) old = (true, List.filter has_tag rels)).
Proof.
  unfold parse_releases_parsed. split; [split |].
  - destruct (parse_releases_loop (nlohmann.items j) []) as [ok stored] eqn:E.
    simpl. intros ->. eapply parse_releases_loop_true, E.
  - intros [rels H]. rewrite (parse_releases_loop_decoded _ _ [] H). reflexivity.
  - intros rels H. rewrite (parse_releases_loop_decoded _ _ [] H). reflexivity.
Qed.

Lemma decode_succeeds_iff_all_records_decode_witness :
  parse_releases_parsed (Returns payload_with_untagged_record) sample_releases
  = (true,
     List.filter has_tag
       [ {| tag := "v1"; published_at := ""; assets := [] |};
         {| tag := ""; published_at := "2023-05-01T10:00:00Z"; assets := [] |} ]).
Proof.
  apply (proj2 (decode_succeeds_iff_all_records_decode payload_with_untagged_record
                  sample_releases)).
  repeat constructor.
Defined.

(** X15. When an element of the document raises a type error, the decoder
    returns [false] and the collection holds the releases decoded from the
    elements before it, the ones with an empty tag left out; the elements
    after it are not looked at. *)
Theorem decode_failure_keeps_earlier_records
    (j : json) (old : list Release) (before after : list json) (bad : json)
    (rels : list Release) (e : json_exception) :
  nlohmann.items j = (before ++ bad :: after)%list ->
  Forall2 (fun r rel => release_of_json r = Returns rel) before rels ->
  release_of_json bad = Throws e ->
  parse_releases_parsed (Returns j) old = (false, List.filter has_tag rels).
Proof.
  intros Hitems Hbefore Hbad. unfold parse_releases_parsed. rewrite Hitems.
  rewrite parse_releases_loop_app, (parse_releases_loop_decoded _ _ [] Hbefore).
  simpl. rewrite Hbad. reflexivity.
Qed.

Lemma decode_failure_keeps_earlier_records_witness :
  parse_releases_parsed
    (Returns (Jarray [ Jobject [("tag_name", Jstring "v1")];
                       Jobject [("tag_name", Jnull)];
                       Jobject [("tag_name", Jstring "v3")] ]))
    sample_releases
  = (false, List.filter has_tag [ {| tag := "v1"; published_at := ""; assets := [] |} ]).
Proof.
  apply (decode_failure_keeps_earlier_records _ sample_releases
           [Jobject [("tag_name", Jstring "v1")]]
           [Jobject [("tag_name", Jstring "v3")]]
           (Jobject [("tag_name", Jnull)]) _ type_error_302).
  - reflexivity.
  - repeat constructor.
  - reflexivity.
Defined.

(** X16. A document whose first element is not an object is a failed decode
    with an empty collection.  This is what happens to a document that is a
    number, a string or a boolean, to an array of such values, and to an
    object whose first member is one, like an error object made of strings. *)
Theorem decode_rejects_leading_non_object (j : json) (old : list Release) :
  first_not_object j = true ->
  parse_releases_parsed (Returns j) old = (false, []).
Proof.
  unfold first_not_object, parse_releases_parsed.
  destruct (nlohmann.items j) as [|x rest]; [discriminate |].
  destruct x; try discriminate; intros _; reflexivity.
Qed.

Lemma decode_rejects_leading_non_object_witness :
  parse_releases_parsed
    (Returns (Jobject [ ("documentation_url", Jstring "https://docs.example.org/rate-limit");
                        ("message", Jstring "API rate limit exceeded") ]))
    sample_releases
  = (false, []).
Proof. apply decode_rejects_leading_non_object. reflexivity. Defined.

(** X17. The fields of a release are not checked alike.  A release whose
    ["assets"] member is missing, or is anything but an array, is decoded
    with no assets and no error; a ["tag_name"] member that is present and
    not a string makes the decoding of the release throw. *)
Theorem assets_tolerated_tag_strict
    (members : list (string * json)) (t p : string) :
  (nlohmann.find_member members "tag_name" = Some (Jstring t) ->
   nlohmann.value_string (Jobject members) "published_at" "" = Returns p ->
   (nlohmann.find_member members "assets" = None \/
    exists v, nlohmann.find_member members "assets" = Some v
              /\ nlohmann.is_array v = false) ->
   release_of_json (Jobject members)
   = Returns {| tag := t; published_at := p; assets := [] |}) /\
  (forall v, nlohmann.find_member members "tag_name" = Some v ->
             (forall s, v <> Jstring s) ->
             release_of_json (Jobject members) = Throws type_error_302).
Proof.
  split.
  - intros Ht Hp Ha. unfold release_of_json.
    assert (nlohmann.value_string (Jobject members) "tag_name" "" = Returns t) as ->
      by (unfold nlohmann.value_string; rewrite Ht; reflexivity).
    rewrite Hp. unfold nlohmann.contains, nlohmann.at_key.
    destruct Ha as [-> | (v & -> & Hv)]; simpl; [reflexivity |].
    rewrite Hv. reflexivity.
  - intros v Hv Hns. unfold release_of_json, nlohmann.value_string at 1.
    rewrite Hv. destruct v; try reflexivity. exfalso. eapply Hns. reflexivity.
Qed.

Lemma assets_tolerated_tag_strict_witness :
  release_of_json (Jobject [("assets", Jnull); ("tag_name", Jstring "v2")])
  = Returns {| tag := "v2"; published_at := ""; assets := [] |} /\
  release_of_json (Jobject [("assets", Jnull); ("tag_name", Jnull)])
  = Throws type_error_302.
Proof.
  split.
  - apply (proj1 (assets_tolerated_tag_strict
                    [("assets", Jnull); ("tag_name", Jstring "v2")] "v2" "")).
    + reflexivity.
    + reflexivity.
    + right. exists Jnull. split; reflexivity.
  - apply (proj2 (assets_tolerated_tag_strict
                    [("assets", Jnull); ("tag_name", Jnull)] "" "") Jnull).
    + reflexivity.
    + discriminate.
Defined.

(** ** More on extraction *)

Lemma run_ops_log ops g : archive_ops (run_ops ops g) = (archive_ops g ++ ops)%list.
Proof.
  revert g. induction ops as [|op ops IH]; intros g; simpl.
  - rewrite app_nil_r. reflexivity.
  - rewrite IH. simpl. rewrite <- app_assoc. reflexivity.
Qed.

Lemma run_ops_done ops g : gExtractDone (run_ops ops g) = gExtractDone g.
Proof. revert g. induction ops as [|op ops IH]; intros g; simpl; [| rewrite IH]; reflexivity. Qed.

Lemma run_ops_files ops g : files (run_ops ops g) = files g.
Proof. revert g. induction ops as [|op ops IH]; intros g; simpl; [| rewrite IH]; reflexivity. Qed.

Lemma run_ops_curl_result ops g : gLastCurlResult (run_ops ops g) = gLastCurlResult g.
Proof. revert g. induction ops as [|op ops IH]; intros g; simpl; [| rewrite IH]; reflexivity. Qed.

Lemma written_paths_app l1 l2 :
  written_paths (l1 ++ l2) = (written_paths l1 ++ written_paths l2)%list.
Proof.
  induction l1 as [|op l1 IH]; [reflexivity |].
  destruct op; simpl; rewrite IH; reflexivity.
Qed.

Lemma written_paths_copy_ops bs : written_paths (copy_ops bs) = [].
Proof.
  induction bs as [|b bs IH]; [reflexivity |]. simpl.
  destruct (block_write b); [exact IH | reflexivity].
Qed.



Lemma copy_archive_data_ok bs last g :
  fst (copy_archive_data bs last g) = ARCHIVE_OK <->
  Forall (fun b => block_write b = ARCHIVE_OK) bs /\ last = ARCHIVE_EOF.
Proof.
  revert g. induction bs as [|b bs IH]; intros g; simpl.
  - destruct last; simpl; split; try tauto; try discriminate.
    + intros _. split; [constructor | reflexivity].
    + intros [_ H]. discriminate.
  - destruct (block_write b) eqn:E; simpl.
    + rewrite IH. split; intros [H1 H2]; (split; [| exact H2]).
      * constructor; assumption.
      * inversion H1; assumption.
    + split; [discriminate |]. intros [H _]. inversion H; congruence.
Qed.

Lemma copy_ops_all_written bs :
  Forall (fun b => block_write b = ARCHIVE_OK) bs ->
  copy_ops bs = map (fun b => write_data_block (buff b) (offset b) ARCHIVE_OK) bs.
Proof.
  induction 1 as [|b bs Hb _ IH]; [reflexivity |]. simpl. rewrite Hb, IH. reflexivity.
Qed.

(** X18. [copy_archive_data] returns [ARCHIVE_OK] exactly when the writer
    accepts every block and the reader ends the data with [ARCHIVE_EOF]; it
    has then handed every block to the writer, in order, with the bytes and
    the offset the reader gave. *)
Theorem copy_writes_every_block (bs : list data_block) (last : read_end) (g : globals) :
  (fst (copy_archive_data bs last g) = ARCHIVE_OK <->
   Forall (fun b => block_write b = ARCHIVE_OK) bs /\ last = ARCHIVE_EOF) /\
  (fst (copy_archive_data bs last g) = ARCHIVE_OK ->
   archive_ops (snd (copy_archive_data bs last g))
   = (archive_ops g
      ++ map (fun b => write_data_block (buff b) (offset b) ARCHIVE_OK) bs)%list).
Proof.
  split; [apply copy_archive_data_ok |].
  intros H. apply copy_archive_data_ok in H. destruct H as [Hall _].
  rewrite copy_archive_data_ops, run_ops_log, (copy_ops_all_written _ Hall). reflexivity.
Qed.

Lemma copy_writes_every_block_witness :
  archive_ops (snd (copy_archive_data [one_block; one_block] ARCHIVE_EOF fresh_globals))
  = (archive_ops fresh_globals
     ++ map (fun b => write_data_block (buff b) (offset b) ARCHIVE_OK)
            [one_block; one_block])%list.
Proof.
  apply (proj2 (copy_writes_every_block [one_block; one_block] ARCHIVE_EOF fresh_globals)).
  reflexivity.
Defined.


(** X22. The counting pass gives the number of entries or -1, never a
    partial count: when the walk over the headers ends with an error, or the
    archive cannot be opened, or no reader can be created, the result is -1
    however many headers were read before. *)
Theorem count_is_whole_or_minus_one (env : extract_env) (ar : archive_file) (err : string) :
  (read_new_ok env = true -> open_ok ar = true -> headers_end ar = ARCHIVE_EOF ->
   count_archive_entries env ar err = (Z.of_nat (length (entries ar)), err)) /\
  (read_new_ok env = false \/ open_ok ar = false
   \/ (exists e, headers_end ar = read_failed e) ->
   fst (count_archive_entries env ar err) = -1).
Proof.
  split.
  - intros Hr Ho He. unfold count_archive_entries. rewrite Hr, Ho, He. simpl.
    rewrite count_fold_length. reflexivity.
  - unfold count_archive_entries.
    destruct (read_new_ok env); simpl; [| reflexivity].
    destruct (open_ok ar); simpl; [| reflexivity].
    intros [[=] | [[=] | [e ->]]]. reflexivity.
Qed.

Lemma count_is_whole_or_minus_one_witness :
  fst (count_archive_entries plain_env
         {| open_ok := true; entries := [plain_entry; plain_entry];
            headers_end := read_failed ARCHIVE_FATAL; error_string := None |} "")
  = -1.
Proof.
  apply (proj2 (count_is_whole_or_minus_one plain_env _ "")).
  right. right. exists ARCHIVE_FATAL. reflexivity.
Defined.

(** ** More on transfers *)

Lemma perform_keeps_extraction_state path events g :
  gDoExtract (snd (curl_easy_perform path events g)) = gDoExtract g /\
  gExtractOk (snd (curl_easy_perform path events g)) = gExtractOk g /\
  gExtractTotal (snd (curl_easy_perform path events g)) = gExtractTotal g /\
  gExtractDone (snd (curl_easy_perform path events g)) = gExtractDone g.
Proof.
  revert g. induction events as [|ev events IH]; intros g; [repeat split |].
  destruct ev as [chunk stored | t n | | code]; simpl.
  - destruct (stored <? length chunk)%nat; [repeat split |].
    exact (IH (fwrite path (take stored chunk) g)).
  - unfold progress_callback. destruct (gCancel g); [repeat split |].
    destruct (0 <? t); [| exact (IH g)].
    exact (IH (emit _ (set_gProgressValue _ g))).
  - exact (IH (set_gCancel true g)).
  - repeat split.
Qed.

(** X24. A download for which no extraction was asked never touches
    libarchive, whatever the transfer does: the extraction counters and flag
    stay as they were, and the last thing posted is the end of the
    download. *)
Theorem download_only_never_extracts
    (env : download_env) (url outPath : string) (g : globals) :
  gDoExtract g = false ->
  let g' := download_file env url outPath g in
  archive_ops g' = archive_ops g /\
  gExtractOk g' = gExtractOk g /\
  gExtractTotal g' = gExtractTotal g /\
  gExtractDone g' = gExtractDone g /\
  List.last (ui g') (progress_value 0) = post_download_done (gLastCurlResult g').
Proof.
  intros Hno g'. subst g'. unfold download_file.
  destruct (curl_init_ok env); simpl; [| rewrite last_last; repeat split].
  destruct (fopen_ok env); simpl; [| rewrite last_last; repeat split].
  set (opened := set_files (<[outPath:=[]]> (files g)) g).
  pose proof (perform_keeps_archive_ops outPath (transfer env) opened) as Hops.
  destruct (perform_keeps_extraction_state outPath (transfer env) opened)
    as (Hd & Hok & Htot & Hdone).
  destruct (curl_easy_perform outPath (transfer env) opened) as [res g1].
  simpl in *. rewrite Hd, Hno, andb_false_r. simpl. rewrite last_last.
  repeat split; assumption.
Qed.

Lemma download_only_never_extracts_witness :
  archive_ops (download_file plain_download "https://example.org/pkg.7z" "/dl/pkg.7z"
                 download_only_globals)
  = archive_ops download_only_globals.
Proof.
  exact (proj1 (download_only_never_extracts plain_download "https://example.org/pkg.7z"
                  "/dl/pkg.7z" download_only_globals eq_refl)).
Defined.

Lemma perform_complete path events g before :
  all_stored events = true ->
  gCancel g = false -> never_cancelled events = true ->
  files g !! path = Some before ->
  fst (curl_easy_perform path events g) = CURLE_OK /\
  files (snd (curl_easy_perform path events g)) !! path
  = Some (before ++ received events)%list.
Proof.
  revert g before. induction events as [|ev events IH]; intros g before Hall Hc Hnc Hf.
  - simpl. rewrite app_nil_r. split; [reflexivity | exact Hf].
  - destruct ev as [chunk stored | t n | | code]; simpl in *; try discriminate.
    + apply andb_true_iff in Hall. destruct Hall as [Hs Hall].
      apply Nat.leb_le in Hs.
      destruct (Nat.ltb_spec stored (length chunk)); [lia |].
      rewrite take_ge by lia. rewrite app_assoc. apply IH; try assumption.
      unfold fwrite. simpl. rewrite lookup_insert_eq, Hf. reflexivity.
    + unfold progress_callback. rewrite Hc.
      destruct (0 <? t); apply IH; assumption.
Qed.

Lemma perform_without_tick path events g1 g2 :
  no_tick events = true ->
  files g1 !! path = files g2 !! path ->
  fst (curl_easy_perform path events g1) = fst (curl_easy_perform path events g2) /\
  files (snd (curl_easy_perform path events g1)) !! path
  = files (snd (curl_easy_perform path events g2)) !! path.
Proof.
  revert g1 g2. induction events as [|ev events IH]; intros g1 g2 Hno Hf.
  - split; [reflexivity | exact Hf].
  - destruct ev as [chunk stored | t n | | code]; simpl in *; try discriminate.
    + assert (files (fwrite path (take stored chunk) g1) !! path
              = files (fwrite path (take stored chunk) g2) !! path) as Hw.
      { unfold fwrite. simpl. rewrite !lookup_insert_eq, Hf. reflexivity. }
      destruct (stored <? length chunk)%nat; [split; [reflexivity | exact Hw] |].
      apply IH; assumption.
    + apply IH; assumption.
    + split; [reflexivity | exact Hf].
Qed.

(** X26. Between two progress ticks the cancellation flag is not looked at:
    for a run of events without a tick, the result of the transfer and the
    bytes that reach the file are the same whether the flag is set or not. *)
Theorem no_tick_no_cancellation
    (path : string) (events : list curl_event) (g : globals) :
  no_tick events = true ->
  fst (curl_easy_perform path events (set_gCancel true g))
  = fst (curl_easy_perform path events (set_gCancel false g)) /\
  files (snd (curl_easy_perform path events (set_gCancel true g))) !! path
  = files (snd (curl_easy_perform path events (set_gCancel false g))) !! path.
Proof.
  intros Hno. apply perform_without_tick; [exact Hno | reflexivity].
Qed.

Lemma no_tick_no_cancellation_witness :
  fst (curl_easy_perform "/dl/pkg.7z" untimed_events (set_gCancel true fresh_globals))
  = fst (curl_easy_perform "/dl/pkg.7z" untimed_events (set_gCancel false fresh_globals)).
Proof.
  exact (proj1 (no_tick_no_cancellation "/dl/pkg.7z" untimed_events fresh_globals
                  eq_refl)).
Defined.

(** ** From the choices to the rows *)

(** X28. With the thread, exception, runtime and version choices on "Any",
    the Arch choice decides by the beginning of the name alone: after
    [on_filters_changed], an asset that carries the attributes of its name
    matches the filters, on "i686", exactly when its name begins with
    ["i686-"], on "x86_64" exactly when it begins with ["x86_64-"], and on
    "Any" always. *)
Theorem arch_choice_selects_by_prefix (st : app) (a : Asset) :
  info a = parse_asset_name (name a) ->
  gMrt_value (choices st) = 0 -> gExc_value (choices st) = 0 ->
  gCrt_value (choices st) = 0 -> gRt_value (choices st) = 0 ->
  (gArch_value (choices st) = 0 ->
   asset_matches (app_gFilters (on_filters_changed st)) a = true) /\
  (gArch_value (choices st) = 1 ->
   (asset_matches (app_gFilters (on_filters_changed st)) a = true
    <-> begins_with "i686-" (name a))) /\
  (gArch_value (choices st) = 2 ->
   (asset_matches (app_gFilters (on_filters_changed st)) a = true
    <-> begins_with "x86_64-" (name a))).
Proof.
  intros Hinfo Hm He Hc Hr.
  assert (forall v, gArch_value (choices st) = v ->
            asset_matches (app_gFilters (on_filters_changed st)) a
            = match_filter (arch_of_choice v (f_arch (app_gFilters st)))
                           (arch (parse_asset_name (name a)))) as Hred.
  { intros v Hv.
    unfold on_filters_changed, rebuild_in, with_shown, with_filters, asset_matches.
    simpl. rewrite Hv, Hm, He, Hc, Hr, Hinfo. simpl. rewrite !andb_true_r. reflexivity. }
  assert (arch (parse_asset_name (name a))
          = if std.starts_with "i686-" (name a) then Arch_I686
            else if std.starts_with "x86_64-" (name a) then Arch_X86_64
            else Arch_Any) as Harch
    by (unfold parse_asset_name; simpl; rewrite !rfind_zero; reflexivity).
  split; [| split]; intros Hv; rewrite (Hred _ Hv), Harch; clear Hred Harch;
    unfold arch_of_choice;
    destruct (std.starts_with "i686-" (name a)) eqn:Ei;
    destruct (std.starts_with "x86_64-" (name a)) eqn:Ex;
    try reflexivity;
    try (exfalso; apply starts_with_begins in Ei, Ex;
         eapply (begins_with_distinct_heads "i" "x"); [discriminate | eauto ..]);
    (split; [first [discriminate | intros _; apply starts_with_begins; assumption]
            | first [reflexivity
                    | intros B; apply starts_with_begins in B; congruence]]).
Qed.

Lemma arch_choice_selects_by_prefix_witness :
  asset_matches (app_gFilters (on_filters_changed i686_chosen))
    (asset_named "i686-13.1.0-release-posix-dwarf-ucrt-rt_v11-rev1.7z") = true
  <-> begins_with "i686-"
        (name (asset_named "i686-13.1.0-release-posix-dwarf-ucrt-rt_v11-rev1.7z")).
Proof.
  exact (proj1 (proj2 (arch_choice_selects_by_prefix i686_chosen
                         (asset_named "i686-13.1.0-release-posix-dwarf-ucrt-rt_v11-rev1.7z")
                         eq_refl eq_refl eq_refl eq_refl eq_refl)) eq_refl).
Defined.

(** ** The extraction in the format of the platform *)

Example windows_absolute_pathnames :
  map win.is_absolute
    [ "C:/Windows/evil.dll"; "C:\Windows\evil.dll"; "\\host\share\x"; "/etc/motd";
      "C:evil.dll"; "bin/gcc.exe" ]
  = [ true; true; true; false; false; false ].
Proof. reflexivity. Qed.

Example windows_lexically_normal_samples :
  map win.lexically_normal
    [ "C:\dl\pkg\../pkg-evil/run.sh"; "C:/dl//pkg/./bin/../x"; "C:\..\x"; "a/.."; "../a" ]
  = [ "C:\dl\pkg-evil\run.sh"; "C:\dl\pkg\x"; "C:\x"; "."; "..\a" ].
Proof. reflexivity. Qed.

Example windows_extraction_directory :
  win.append (win.parent_path "C:\dl\pkg.7z") (win.stem "C:\dl\pkg.7z") = "C:\dl\pkg".
Proof. reflexivity. Qed.

Example windows_safe_join_samples :
  map (platform.safe_join windows_paths "C:\dl\pkg")
    [ "bin/gcc.exe"; "/dl/pkg/x"; "../pkg.7z"; "../pkg-evil/run.sh"; "..\..\evil.dll";
      "/etc/motd"; "D:evil.dll" ]
  = [ inl "C:\dl\pkg\bin\gcc.exe"; inl "C:\dl\pkg\x"; inl "C:\dl\pkg.7z";
      inl "C:\dl\pkg-evil\run.sh";
      inr "Blocked path traversal in archive entry";
      inr "Blocked path traversal in archive entry";
      inr "Blocked path traversal in archive entry" ].
Proof. reflexivity. Qed.

(** With [posix_paths] the extraction is the one of the functions that call
    [fs] directly. *)
Lemma extract_entries_at_posix base ar rest n g :
  platform.extract_entries posix_paths base ar rest n g = extract_entries base ar rest n g.
Proof.
  revert n g. induction rest as [|entry rest IH]; intros n g; [reflexivity |].
  cbn [platform.extract_entries extract_entries].
  destruct (pathname entry) as [p|]; [| apply IH].
  destruct (string_empty p); [apply IH |].
  change (path_is_absolute posix_paths p) with (fs.is_absolute p).
  destruct (fs.is_absolute p); [apply IH |].
  change (platform.safe_join posix_paths base p) with (safe_join base p).
  destruct (safe_join base p) as [full|what]; [| reflexivity].
  destruct (header_write entry); [| apply IH].
  destruct (copy_archive_data _ _ _) as [[|e] g2]; [apply IH | reflexivity].
Qed.

Lemma extract_archive_to_dir_at_posix env ar outDir err g :
  platform.extract_archive_to_dir posix_paths env ar outDir err g
  = extract_archive_to_dir env ar outDir err g.
Proof.
  unfold platform.extract_archive_to_dir, extract_archive_to_dir.
  rewrite extract_entries_at_posix. reflexivity.
Qed.

Lemma download_file_at_posix env url outPath g :
  platform.download_file posix_paths env url outPath g = download_file env url outPath g.
Proof.
  unfold platform.download_file, download_file, platform.extract_after_download,
    extract_after_download.
  destruct (negb (curl_init_ok env)); [reflexivity |].
  destruct (negb (fopen_ok env)); [reflexivity |].
  destruct (curl_easy_perform _ _ _) as [res g1].
  destruct (_ && _); [| reflexivity].
  rewrite extract_archive_to_dir_at_posix. reflexivity.
Qed.

Lemma platform_extractable_unfold lib entry :
  platform.extractable lib entry =
  match pathname entry with
  | Some p => negb (string_empty p) && negb (path_is_absolute lib p)
  | None => false
  end.
Proof. reflexivity. Qed.

(** A loop that reads all its headers posts one completion per entry it
    does not skip, counting on from [doneCount]. *)
Lemma platform_extract_entries_exhausted lib base ar rest n g g' :
  platform.extract_entries lib base ar rest n g = (headers_exhausted, g') ->
  ui g' = (ui g ++ map (post_update_extract_progress (gExtractTotal g))
                     (seqZ (n + 1) (Z.of_nat (length (List.filter (platform.extractable lib) rest)))))%list
  /\ gExtractTotal g' = gExtractTotal g
  /\ (gExtractDone g = n ->
      gExtractDone g' = n + Z.of_nat (length (List.filter (platform.extractable lib) rest))).
Proof.
  revert n g. induction rest as [|entry rest IH]; intros n g; simpl.
  - intros [= <-]. rewrite app_nil_r. repeat split. lia.
  - rewrite platform_extractable_unfold. destruct (pathname entry) as [p|].
    2:{ intros H. apply IH in H. exact H. }
    destruct (string_empty p); simpl.
    { intros H. apply IH in H. exact H. }
    destruct (path_is_absolute lib p); simpl.
    { intros H. apply IH in H. exact H. }
    destruct (platform.safe_join lib base p) as [full|what]; [| discriminate].
    destruct (header_write entry) as [|e].
    + destruct (copy_archive_data _ _ _) as [[|e] g2] eqn:C; [| discriminate].
      intros H. apply IH in H.
      pose proof (copy_archive_data_ops (blocks entry) (data_end entry)
                    (archive_call (write_header full ARCHIVE_OK) g)) as Hops.
      rewrite C in Hops. simpl in Hops. subst g2.
      unfold post_extract_progress in H. simpl in H.
      rewrite run_ops_ui, run_ops_total in H. simpl in H.
      destruct H as (Hui & Htot & Hdone).
      rewrite seqZ_succ_length. simpl. rewrite Hui, <- app_assoc. simpl.
      repeat split; [exact Htot |]. intros _. rewrite Hdone by reflexivity. lia.
    + intros H. apply IH in H.
      unfold post_extract_progress in H. simpl in H.
      destruct H as (Hui & Htot & Hdone).
      rewrite seqZ_succ_length. simpl. rewrite Hui, <- app_assoc. simpl.
      repeat split; [exact Htot |]. intros _. rewrite Hdone by reflexivity. lia.
Qed.

(** The loop over a list of entries followed by more entries. *)
Lemma platform_extract_entries_app lib base ar before rest n g g1 :
  platform.extract_entries lib base ar before n g = (headers_exhausted, g1) ->
  platform.extract_entries lib base ar (before ++ rest) n g
  = platform.extract_entries lib base ar rest
      (n + Z.of_nat (length (List.filter (platform.extractable lib) before))) g1.
Proof.
  revert n g. induction before as [|entry before IH]; intros n g; simpl.
  - intros [= <-]. f_equal. lia.
  - rewrite platform_extractable_unfold. destruct (pathname entry) as [p|]; [| apply IH].
    destruct (string_empty p); simpl; [apply IH |].
    destruct (path_is_absolute lib p); simpl; [apply IH |].
    destruct (platform.safe_join lib base p) as [full|what]; [| discriminate].
    destruct (header_write entry) as [|e].
    + destruct (copy_archive_data _ _ _) as [[|e] g2]; [| discriminate].
      intros H. rewrite (IH _ _ H). f_equal. lia.
    + intros H. rewrite (IH _ _ H). f_equal. lia.
Qed.

(** The only exception [safe_join] throws. *)
Lemma platform_safe_join_message lib base rel what :
  platform.safe_join lib base rel = inr what -> what = "Blocked path traversal in archive entry".
Proof.
  unfold platform.safe_join. destruct (_ || _); [intros [= <-]; reflexivity | discriminate].
Qed.

Lemma platform_safe_join_prefix lib base rel full :
  platform.safe_join lib base rel = inl full ->
  full = path_lexically_normal lib (path_append lib base rel)
  /\ std.starts_with (path_lexically_normal lib base) full = true.
Proof.
  unfold platform.safe_join.
  destruct (_ <? _)%nat; simpl; [discriminate |].
  destruct (std.starts_with _ _) eqn:E; simpl; [| discriminate].
  intros [= <-]. split; [reflexivity | exact E].
Qed.

(** What the loop has done when it is left, however it is left. *)
Lemma platform_extract_entries_any_exit lib base ar rest n g :
  exists (m : nat) (new : list archive_op),
    ui (snd (platform.extract_entries lib base ar rest n g))
    = (ui g ++ map (post_update_extract_progress (gExtractTotal g))
                   (seqZ (n + 1) (Z.of_nat m)))%list /\
    (m <= length (List.filter (platform.extractable lib) rest))%nat /\
    gExtractTotal (snd (platform.extract_entries lib base ar rest n g)) = gExtractTotal g /\
    (gExtractDone g = n ->
     gExtractDone (snd (platform.extract_entries lib base ar rest n g)) = n + Z.of_nat m) /\
    archive_ops (snd (platform.extract_entries lib base ar rest n g)) = (archive_ops g ++ new)%list /\
    Forall (fun p => std.starts_with (path_lexically_normal lib base) p = true)
           (written_paths new) /\
    files (snd (platform.extract_entries lib base ar rest n g)) = files g /\
    gLastCurlResult (snd (platform.extract_entries lib base ar rest n g)) = gLastCurlResult g.
Proof.
  revert n g. induction rest as [|entry rest IH]; intros n g.
  { exists 0%nat, []. simpl. rewrite !app_nil_r. repeat split; try constructor. lia. }
  assert (forall g1 ops,
            ui g1 = ui g -> gExtractTotal g1 = gExtractTotal g ->
            gExtractDone g1 = gExtractDone g ->
            archive_ops g1 = (archive_ops g ++ ops)%list ->
            written_paths ops = [] ->
            files g1 = files g -> gLastCurlResult g1 = gLastCurlResult g ->
            platform.extractable lib entry = false ->
            exists (m : nat) (new : list archive_op),
              ui (snd (platform.extract_entries lib base ar rest n g1))
              = (ui g ++ map (post_update_extract_progress (gExtractTotal g))
                             (seqZ (n + 1) (Z.of_nat m)))%list /\
              (m <= length (List.filter (platform.extractable lib) (entry :: rest)))%nat /\
              gExtractTotal (snd (platform.extract_entries lib base ar rest n g1)) = gExtractTotal g /\
              (gExtractDone g = n ->
               gExtractDone (snd (platform.extract_entries lib base ar rest n g1)) = n + Z.of_nat m) /\
              archive_ops (snd (platform.extract_entries lib base ar rest n g1))
              = (archive_ops g ++ new)%list /\
              Forall (fun p => std.starts_with (path_lexically_normal lib base) p = true)
                     (written_paths new) /\
              files (snd (platform.extract_entries lib base ar rest n g1)) = files g /\
              gLastCurlResult (snd (platform.extract_entries lib base ar rest n g1))
              = gLastCurlResult g) as Hskip.
  { intros g1 ops Hui Htot Hdone Hops Hw Hf Hc Hx.
    destruct (IH n g1) as (m & new & H1 & H2 & H3 & H4 & H5 & H6 & H7 & H8).
    exists m, (ops ++ new)%list. simpl List.filter. rewrite Hx.
    rewrite H1, H3, H5, H7, H8, Hui, Htot, Hops, Hf, Hc, written_paths_app, Hw.
    rewrite <- app_assoc. repeat split; try assumption. intros E. apply H4. congruence. }
  simpl platform.extract_entries.
  pose proof (platform_extractable_unfold lib entry) as Hx.
  destruct (pathname entry) as [p|].
  2:{ apply (Hskip _ [read_data_skip]); try reflexivity. exact Hx. }
  destruct (string_empty p) eqn:Hempty.
  { apply (Hskip _ [read_data_skip]); try reflexivity. exact Hx. }
  destruct (path_is_absolute lib p) eqn:Habs.
  { apply (Hskip _ [read_data_skip]); try reflexivity. exact Hx. }
  simpl in Hx. clear Hskip.
  destruct (platform.safe_join lib base p) as [full|what] eqn:Hjoin.
  2:{ exists 0%nat, []. simpl. rewrite !app_nil_r. repeat split; try constructor; lia. }
  apply platform_safe_join_prefix in Hjoin. destruct Hjoin as [_ Hprefix].
  assert (forall ops,
            written_paths ops = [full] ->
            exists (m : nat) (new : list archive_op),
              ui (snd (platform.extract_entries lib base ar rest (n + 1)
                         (post_extract_progress
                            (set_gExtractDone (n + 1) (run_ops ops g)))))
              = (ui g ++ map (post_update_extract_progress (gExtractTotal g))
                             (seqZ (n + 1) (Z.of_nat m)))%list /\
              (m <= length (List.filter (platform.extractable lib) (entry :: rest)))%nat /\
              gExtractTotal (snd (platform.extract_entries lib base ar rest (n + 1)
                         (post_extract_progress
                            (set_gExtractDone (n + 1) (run_ops ops g))))) = gExtractTotal g /\
              (gExtractDone g = n ->
               gExtractDone (snd (platform.extract_entries lib base ar rest (n + 1)
                         (post_extract_progress
                            (set_gExtractDone (n + 1) (run_ops ops g)))))
               = n + Z.of_nat m) /\
              archive_ops (snd (platform.extract_entries lib base ar rest (n + 1)
                         (post_extract_progress
                            (set_gExtractDone (n + 1) (run_ops ops g)))))
              = (archive_ops g ++ new)%list /\
              Forall (fun p => std.starts_with (path_lexically_normal lib base) p = true)
                     (written_paths new) /\
              files (snd (platform.extract_entries lib base ar rest (n + 1)
                         (post_extract_progress
                            (set_gExtractDone (n + 1) (run_ops ops g))))) = files g /\
              gLastCurlResult (snd (platform.extract_entries lib base ar rest (n + 1)
                         (post_extract_progress
                            (set_gExtractDone (n + 1) (run_ops ops g)))))
              = gLastCurlResult g) as Hdone.
  { intros ops Hw.
    set (g3 := post_extract_progress (set_gExtractDone (n + 1) (run_ops ops g))).
    assert (ui g3 = (ui g ++ [post_update_extract_progress (gExtractTotal g) (n + 1)])%list)
      as Hui by (subst g3; unfold post_extract_progress; simpl;
                 rewrite run_ops_ui, run_ops_total; reflexivity).
    assert (gExtractTotal g3 = gExtractTotal g) as Htot
      by (subst g3; unfold post_extract_progress; simpl; apply run_ops_total).
    assert (gExtractDone g3 = n + 1) as Hd by reflexivity.
    assert (archive_ops g3 = (archive_ops g ++ ops)%list) as Hops
      by (subst g3; unfold post_extract_progress; simpl; apply run_ops_log).
    assert (files g3 = files g) as Hf
      by (subst g3; unfold post_extract_progress; simpl; apply run_ops_files).
    assert (gLastCurlResult g3 = gLastCurlResult g) as Hc
      by (subst g3; unfold post_extract_progress; simpl; apply run_ops_curl_result).
    clearbody g3.
    destruct (IH (n + 1) g3) as (m & new & H1 & H2 & H3 & H4 & H5 & H6 & H7 & H8).
    exists (S m), (ops ++ new)%list. simpl List.filter. rewrite Hx.
    rewrite H1, H3, H5, H7, H8, Hui, Htot, Hops, Hf, Hc.
    rewrite seqZ_succ_length, written_paths_app, Hw, <- !app_assoc. simpl.
    split; [reflexivity |]. split; [lia |]. split; [reflexivity |].
    split; [intros _; rewrite H4 by exact Hd; lia |].
    split; [reflexivity |].
    split; [constructor; [exact Hprefix | exact H6] |].
    split; reflexivity. }
  destruct (header_write entry) as [|e].
  - pose proof (copy_archive_data_ops (blocks entry) (data_end entry)
                  (archive_call (write_header full ARCHIVE_OK) g)) as Hcopy.
    destruct (copy_archive_data _ _ _) as [[|e] g2]; simpl in Hcopy; subst g2.
    + specialize (Hdone (write_header full ARCHIVE_OK
                           :: copy_ops (blocks entry) ++ [write_finish_entry])%list).
      simpl in Hdone. rewrite written_paths_app, written_paths_copy_ops in Hdone.
      specialize (Hdone eq_refl).
      replace (archive_call write_finish_entry
                 (run_ops (copy_ops (blocks entry))
                    (archive_call (write_header full ARCHIVE_OK) g)))
        with (run_ops (copy_ops (blocks entry) ++ [write_finish_entry])
                (archive_call (write_header full ARCHIVE_OK) g)).
      * exact Hdone.
      * unfold run_ops. rewrite fold_left_app. reflexivity.
    + exists 0%nat, (write_header full ARCHIVE_OK :: copy_ops (blocks entry)).
      simpl. rewrite run_ops_ui, run_ops_total, run_ops_done, run_ops_log,
        run_ops_files, run_ops_curl_result, written_paths_copy_ops. simpl.
      rewrite app_nil_r, <- app_assoc. simpl.
      repeat split; try lia. constructor; [exact Hprefix | constructor].
  - apply (Hdone [write_header full (write_failed e); read_data_skip; write_finish_entry]).
    reflexivity.
Qed.

Lemma platform_extract_entries_log lib base ar rest n g g' :
  platform.extract_entries lib base ar rest n g = (headers_exhausted, g') ->
  archive_ops g' = (archive_ops g ++ concat (map (platform.entry_ops lib base) rest))%list /\
  Forall (fun e => platform.extractable lib e = true -> header_write e = ARCHIVE_OK ->
                   Forall (fun b => block_write b = ARCHIVE_OK) (blocks e)
                   /\ data_end e = ARCHIVE_EOF) rest.
Proof.
  revert n g. induction rest as [|entry rest IH]; intros n g; simpl.
  - intros [= <-]. rewrite app_nil_r. split; [reflexivity | constructor].
  - unfold platform.entry_ops at 1. pose proof (platform_extractable_unfold lib entry) as Hx.
    destruct (pathname entry) as [p|].
    2:{ intros H. apply IH in H. destruct H as [H1 H2]. simpl in H1.
        rewrite H1, <- app_assoc. split; [reflexivity |].
        constructor; [congruence | exact H2]. }
    destruct (string_empty p); simpl in *.
    { intros H. apply IH in H. destruct H as [H1 H2]. simpl in H1.
      rewrite H1, <- app_assoc. split; [reflexivity |].
      constructor; [congruence | exact H2]. }
    destruct (path_is_absolute lib p); simpl in *.
    { intros H. apply IH in H. destruct H as [H1 H2]. simpl in H1.
      rewrite H1, <- app_assoc. split; [reflexivity |].
      constructor; [congruence | exact H2]. }
    destruct (platform.safe_join lib base p) as [full|what]; [| discriminate].
    destruct (header_write entry) as [|e] eqn:Hh.
    + pose proof (copy_archive_data_ops (blocks entry) (data_end entry)
                    (archive_call (write_header full ARCHIVE_OK) g)) as Hops.
      pose proof (copy_archive_data_ok (blocks entry) (data_end entry)
                    (archive_call (write_header full ARCHIVE_OK) g)) as Hok.
      destruct (copy_archive_data _ _ _) as [[|e] g2]; [| discriminate].
      simpl in Hops, Hok. subst g2. intros H. apply IH in H. destruct H as [H1 H2].
      unfold post_extract_progress in H1. simpl in H1.
      rewrite run_ops_log in H1. simpl in H1.
      rewrite H1, <- !app_assoc. simpl. rewrite <- !app_assoc. simpl.
      split; [reflexivity |]. constructor; [| exact H2].
      intros _ _. apply Hok. reflexivity.
    + intros H. apply IH in H. destruct H as [H1 H2].
      unfold post_extract_progress in H1. simpl in H1.
      rewrite H1, <- !app_assoc. simpl.
      split; [reflexivity |]. constructor; [| exact H2]. intros _ Hok. congruence.
Qed.

(** A successful extraction: what it posts and where it leaves the counters. *)
Lemma platform_extract_archive_to_dir_success lib env ar outDir err g err' g' :
  platform.extract_archive_to_dir lib env ar outDir err g = (true, err', g') ->
  let k := Z.of_nat (length (List.filter (platform.extractable lib) (entries ar))) in
  ui g' = (ui g ++ post_update_extract_progress (gExtractTotal g) 0
                 :: map (post_update_extract_progress (gExtractTotal g)) (seqZ 1 k))%list
  /\ gExtractTotal g' = gExtractTotal g
  /\ gExtractDone g' = k.
Proof.
  unfold platform.extract_archive_to_dir.
  destruct (create_directories_error env); [discriminate |].
  destruct (negb (read_new_ok env) || negb (write_disk_new_ok env)); [discriminate |].
  destruct (negb (open_ok ar)); [discriminate |].
  destruct (platform.extract_entries _ _ _ _ _ _) as [[| |] g1] eqn:L; try discriminate.
  destruct (headers_end ar); [| discriminate].
  intros [= _ <-]. apply platform_extract_entries_exhausted in L.
  unfold post_extract_progress in L. simpl in L.
  destruct L as (Hui & Htot & Hdone). simpl.
  rewrite Hui, <- app_assoc. simpl. repeat split; [exact Htot |].
  rewrite Hdone by reflexivity. lia.
Qed.

(** *** Counting and progress *)

Example mixed_archive_progress :
  let g' := platform.extract_after_download windows_paths mixed_download "C:\dl\pkg.7z"
              fresh_globals in
  fst (count_archive_entries plain_env mixed_archive "") = 4 /\
  gExtractOk g' = 1 /\
  completed_posts (ui g') = [1; 2] /\
  gExtractTotal g' = 4 /\ gExtractDone g' = 2 /\
  written_paths (archive_ops g') = ["C:\dl\pkg\README.txt"; "C:\dl\pkg\bin\gcc.exe"].
Proof. vm_compute. repeat split. Qed.

(** C9 fails as stated: on a well-formed archive whose single entry declares
    the path ["C:/Windows/evil.dll"], absolute on the platform, the count
    is 1, the extraction succeeds, and no completion is posted; the progress
    stays at 0. *)
Lemma progress_reaches_count_fails_on_skipped_entry :
  open_ok drive_archive = true /\
  headers_end drive_archive = ARCHIVE_EOF /\
  win.is_absolute "C:/Windows/evil.dll" = true /\
  gExtractOk (platform.extract_after_download windows_paths drive_env "C:\dl\pkg.7z"
                fresh_globals) = 1 /\
  ~ platform.progress_reaches_count windows_paths drive_env "C:\dl\pkg.7z" fresh_globals.
Proof.
  split; [reflexivity |]. split; [reflexivity |]. split; [reflexivity |].
  split; [reflexivity |].
  intros [_ H]. destruct (H eq_refl) as [Hposts _].
  vm_compute in Hposts. discriminate.
Qed.

(** C9, amended.  On a well-formed archive of N entries the counting pass
    returns N.  A successful extraction after it posts exactly one completion
    per entry whose declared path is neither empty nor absolute in the
    pathname format of the platform, numbered from 1, and leaves the
    completed count at their number; when every entry is of that kind the
    number is N, and with N positive the progress shown at the end is
    100%. *)
Theorem count_then_extract_progress
    (lib : path_library) (env : download_env) (outPath : string) (g : globals) :
  read_new_ok (extraction env) = true ->
  open_ok (archive env) = true ->
  headers_end (archive env) = ARCHIVE_EOF ->
  let n := Z.of_nat (length (entries (archive env))) in
  let k := Z.of_nat (length (List.filter (platform.extractable lib)
                               (entries (archive env)))) in
  let g' := platform.extract_after_download lib env outPath g in
  fst (count_archive_entries (extraction env) (archive env) "") = n /\
  (gExtractOk g' = 1 ->
   completed_posts (drop (length (ui g)) (ui g')) = seqZ 1 k /\
   gExtractDone g' = k /\
   (Forall (fun e => platform.extractable lib e = true) (entries (archive env)) ->
    k = n /\
    (0 < n -> (awake_update_extract_progress (gExtractTotal g') (gExtractDone g') == 100)%Q))).
Proof.
  intros Hr Ho He n k g'.
  pose proof (count_archive_entries_valid _ _ "" Hr Ho He) as Hcount.
  split; [rewrite Hcount; reflexivity |].
  subst g'. unfold platform.extract_after_download. rewrite Hcount. simpl fst. fold n.
  set (g1 := emit (progress_value 0) (post_status "Counting archive entries..." g)).
  set (g2 := if 0 <? n then _ else _).
  set (g3 := post_status "Extracting..." g2).
  assert (gExtractTotal g3 = if 0 <? n then n else 0) as Htot3.
  { subst g3 g2. destruct (0 <? n); reflexivity. }
  assert (exists pre, ui g3 = (ui g ++ pre)%list /\ completed_posts pre = [])
    as (pre & Hpre & Hnone).
  { subst g3 g2 g1. destruct (0 <? n); simpl; rewrite <- ?app_assoc; simpl;
      eexists; (split; [reflexivity |]); reflexivity. }
  clearbody g3. clear g1 g2.
  destruct (platform.extract_archive_to_dir _ _ _ _ _ g3) as [[ok err] g4] eqn:X.
  destruct ok; simpl; [| intros [=]]. intros _.
  apply platform_extract_archive_to_dir_success in X. cbv zeta in X. fold k in X.
  destruct X as (Hui & Htot & Hdone).
  split; [| split].
  - rewrite Hui, Hpre, <- !app_assoc, drop_app_length, !completed_posts_app, Hnone.
    simpl. unfold k. rewrite (completed_posts_seqZ _ 1 _) by lia.
    rewrite app_nil_r. reflexivity.
  - exact Hdone.
  - intros Hall.
    assert (k = n) as Hkn.
    { subst k n. f_equal. f_equal. clear -Hall.
      induction Hall as [|e es He _ IH]; simpl; [reflexivity |].
      rewrite He. simpl. f_equal. exact IH. }
    split; [exact Hkn |]. intros Hn.
    rewrite Htot, Hdone, Htot3, Hkn. destruct (Z.ltb_spec 0 n); [| lia].
    apply percent_full, Hn.
Qed.

Lemma count_then_extract_progress_witness :
  let g' := platform.extract_after_download windows_paths plain_download "C:\dl\pkg.7z"
              fresh_globals in
  let k := Z.of_nat (length (List.filter (platform.extractable windows_paths)
                               (entries (archive plain_download)))) in
  fst (count_archive_entries plain_env plain_archive "") = 2 /\
  gExtractOk g' = 1 /\
  completed_posts (drop (length (ui fresh_globals)) (ui g')) = seqZ 1 k /\
  gExtractDone g' = k /\
  k = 2 /\
  (awake_update_extract_progress (gExtractTotal g') (gExtractDone g') == 100)%Q.
Proof.
  intros g' k.
  destruct (count_then_extract_progress windows_paths plain_download "C:\dl\pkg.7z"
              fresh_globals eq_refl eq_refl eq_refl) as [Hcount Hrun].
  assert (gExtractOk g' = 1) as Hok by (vm_compute; reflexivity).
  destruct (Hrun Hok) as (Hposts & Hdone & Hall).
  assert (Forall (fun e => platform.extractable windows_paths e = true)
            (entries (archive plain_download)))
    as Hext by (repeat constructor).
  destruct (Hall Hext) as [Hkn Hfull].
  split; [exact Hcount |]. split; [exact Hok |]. split; [exact Hposts |].
  split; [exact Hdone |]. split; [exact Hkn |].
  exact (Hfull eq_refl).
Defined.

(** *** What reaches libarchive *)

(** X19. In whatever pathname format the program is built, a successful
    extraction has handed to libarchive, entry by entry in the order of the
    archive: a skip of the data for an entry whose path is missing, empty or
    absolute in that format; for any other entry the header under the joined
    path, then every block of its data in order, then the end of the entry,
    or, when the header was refused, a skip of the data in place of the
    blocks.  Every entry whose header was written had all of its blocks
    accepted and its data read to the end. *)
Theorem successful_extraction_log
    (lib : path_library) (env : extract_env) (ar : archive_file) (outDir err : string)
    (g : globals) (err' : string) (g' : globals) :
  platform.extract_archive_to_dir lib env ar outDir err g = (true, err', g') ->
  err' = err /\
  archive_ops g'
  = (archive_ops g ++ concat (map (platform.entry_ops lib outDir) (entries ar)))%list /\
  Forall (fun e => platform.extractable lib e = true -> header_write e = ARCHIVE_OK ->
                   copy_ops (blocks e)
                   = map (fun b => write_data_block (buff b) (offset b) ARCHIVE_OK)
                         (blocks e)
                   /\ data_end e = ARCHIVE_EOF)
         (entries ar).
Proof.
  unfold platform.extract_archive_to_dir.
  destruct (create_directories_error env); [discriminate |].
  destruct (negb (read_new_ok env) || negb (write_disk_new_ok env)); [discriminate |].
  destruct (negb (open_ok ar)); [discriminate |].
  destruct (platform.extract_entries _ _ _ _ _ _) as [[| |] g1] eqn:L; try discriminate.
  destruct (headers_end ar); [| discriminate].
  intros [= <- <-]. apply platform_extract_entries_log in L. destruct L as [H1 H2].
  split; [reflexivity |]. split; [exact H1 |].
  eapply Forall_impl; [exact H2 |]. simpl. intros e He Hx Hh.
  destruct (He Hx Hh) as [Hall Hend]. split; [| exact Hend].
  apply copy_ops_all_written, Hall.
Qed.

Lemma successful_extraction_log_witness :
  archive_ops (snd (platform.extract_archive_to_dir windows_paths plain_env mixed_archive
                      "C:\dl\pkg" "" fresh_globals))
  = (archive_ops fresh_globals
     ++ concat (map (platform.entry_ops windows_paths "C:\dl\pkg")
                  (entries mixed_archive)))%list.
Proof.
  assert (platform.extract_archive_to_dir windows_paths plain_env mixed_archive
            "C:\dl\pkg" "" fresh_globals
          = (true, "",
             snd (platform.extract_archive_to_dir windows_paths plain_env mixed_archive
                    "C:\dl\pkg" "" fresh_globals))) as H by reflexivity.
  exact (proj1 (proj2 (successful_extraction_log _ _ _ _ _ _ _ _ H))).
Defined.

(** X21. Progress of an extraction only counts up, in whatever pathname
    format the program is built.  However the extraction ends, the completed
    counts it posted are 0, 1, ..., m without a gap or a repeat, m is the
    completed count it leaves in [gExtractDone], and m is at most the number
    of entries whose path is neither empty nor absolute in that format. *)
Theorem extraction_progress_counts_up
    (lib : path_library) (env : extract_env) (ar : archive_file) (outDir err : string)
    (g : globals) :
  exists m : nat,
    ui (snd (platform.extract_archive_to_dir lib env ar outDir err g))
    = (ui g ++ map (post_update_extract_progress (gExtractTotal g))
                   (seqZ 0 (Z.of_nat (S m))))%list /\
    gExtractDone (snd (platform.extract_archive_to_dir lib env ar outDir err g))
    = Z.of_nat m /\
    (m <= length (List.filter (platform.extractable lib) (entries ar)))%nat.
Proof.
  unfold platform.extract_archive_to_dir.
  destruct (create_directories_error env);
    [exists 0%nat; repeat split; simpl; lia |].
  destruct (negb (read_new_ok env) || negb (write_disk_new_ok env));
    [exists 0%nat; repeat split; simpl; lia |].
  destruct (negb (open_ok ar)); [exists 0%nat; repeat split; simpl; lia |].
  destruct (platform_extract_entries_any_exit lib outDir ar (entries ar) 0
              (post_extract_progress (set_gExtractDone 0 g)))
    as (m & new & Hui & Hm & _ & Hdone & _).
  exists m. rewrite seqZ_succ_length.
  unfold post_extract_progress in Hui, Hdone. simpl in Hui, Hdone.
  rewrite <- app_assoc in Hui. simpl in Hui. specialize (Hdone eq_refl).
  destruct (platform.extract_entries _ _ _ _ _ _) as [[| |] g1]; simpl in *;
    try destruct (headers_end ar); simpl; repeat split; assumption.
Qed.

(** X23. In whatever pathname format the program is built, an entry whose
    joined path [safe_join] rejects ends the extraction with the traversal
    message: the extraction returns [false], libarchive has been asked
    exactly what the entries before it required and nothing for it or for
    the entries after it, and the completed count is the number of entries
    before it whose path is neither empty nor absolute in that format. *)
Theorem rejected_entry_ends_extraction
    (lib : path_library) (env : extract_env) (ar : archive_file) (outDir err : string)
    (g g1 : globals) (entry : archive_entry) (p what : string)
    (before after : list archive_entry) :
  create_directories_error env = None ->
  read_new_ok env = true -> write_disk_new_ok env = true -> open_ok ar = true ->
  entries ar = (before ++ entry :: after)%list ->
  platform.extract_entries lib outDir ar before 0
    (post_extract_progress (set_gExtractDone 0 g))
  = (headers_exhausted, g1) ->
  pathname entry = Some p -> string_empty p = false -> path_is_absolute lib p = false ->
  platform.safe_join lib outDir p = inr what ->
  platform.extract_archive_to_dir lib env ar outDir err g
  = (false, "Blocked path traversal in archive entry", g1) /\
  archive_ops g1
  = (archive_ops g ++ concat (map (platform.entry_ops lib outDir) before))%list /\
  gExtractDone g1 = Z.of_nat (length (List.filter (platform.extractable lib) before)).
Proof.
  intros Hdir Hr Hw Ho Hent Hbefore Hp Hne Hrel Hjoin. split; [| split].
  - unfold platform.extract_archive_to_dir. rewrite Hdir, Hr, Hw, Ho, Hent. simpl.
    rewrite (platform_extract_entries_app _ _ _ _ _ _ _ _ Hbefore). simpl.
    rewrite Hp, Hne, Hrel, Hjoin. rewrite (platform_safe_join_message _ _ _ _ Hjoin).
    reflexivity.
  - apply platform_extract_entries_log in Hbefore. exact (proj1 Hbefore).
  - apply platform_extract_entries_exhausted in Hbefore.
    destruct Hbefore as (_ & _ & Hdone). rewrite Hdone by reflexivity. lia.
Qed.

Lemma rejected_entry_ends_extraction_witness :
  platform.extract_archive_to_dir windows_paths plain_env climbing_archive "C:\dl\pkg" ""
    fresh_globals
  = (false, "Blocked path traversal in archive entry",
     snd (platform.extract_entries windows_paths "C:\dl\pkg" climbing_archive
            [plain_entry] 0 (post_extract_progress (set_gExtractDone 0 fresh_globals)))).
Proof.
  refine (proj1 (rejected_entry_ends_extraction windows_paths plain_env climbing_archive
                   "C:\dl\pkg" "" fresh_globals _ climbing_entry "../../etc/passwd"
                   "Blocked path traversal in archive entry"
                   [plain_entry] [plain_entry]
                   eq_refl eq_refl eq_refl eq_refl eq_refl _ eq_refl eq_refl eq_refl
                   eq_refl)).
  reflexivity.
Defined.

Example drive_entry_before_climb :
  let r := platform.extract_archive_to_dir windows_paths plain_env guarded_archive
             "C:\dl\pkg" "" fresh_globals in
  fst r = (false, "Blocked path traversal in archive entry") /\
  archive_ops (snd r) = [read_data_skip] /\
  gExtractDone (snd r) = 0.
Proof. vm_compute. repeat split. Qed.

(** ** The path of a download *)

Lemma back_last (dir : string) (c : ascii) : back (dir +:+ String c "") = c.
Proof.
  unfold back. induction dir as [|a dir IH]; [reflexivity |].
  rewrite append_cons. simpl list_ascii_of_string.
  destruct (list_ascii_of_string (dir +:+ String c "")) as [|x l] eqn:E.
  - destruct dir; discriminate.
  - exact IH.
Qed.

(** X6. When the browser is in step with the selected release and the
    filters, a download started on a selected row takes the asset whose name
    that row shows: no vector is indexed out of range, the URL is that
    asset's, and the output path is the picked directory followed by the
    asset's name, with a backslash between them exactly when the last
    character of the directory is neither a backslash nor a slash. *)
Theorem start_download_takes_shown_asset
    (extract_after : bool) (dir : string) (c : ascii) (st : app) :
  list_in_step st ->
  0 <= gRelease_value st ->
  1 <= gAssets_value st <= Z.of_nat (length (gAssets (shown st))) ->
  exists rel asset j,
    app_gReleases st !! Z.to_nat (gRelease_value st) = Some rel /\
    assets rel !! Z.to_nat j = Some asset /\
    asset_matches (app_gFilters st) asset = true /\
    gAssets (shown st) !! Z.to_nat (gAssets_value st - 1) = Some (name asset) /\
    start_download extract_after (dir +:+ String c "") st
    = launched (url asset)
        ((dir +:+ String c "")
         +:+ (if Ascii.eqb c backslash || Ascii.eqb c fs.slash then ""
              else String backslash "")
         +:+ name asset)
        (if extract_after then "Downloading (then extract)..." else "Downloading...")
        extract_after.
Proof.
  intros Hstep Hr Hrow.
  destruct (shown_row_asset st Hstep Hr Hrow)
    as (rel & asset & j & Hrel & Hj0 & Ha & Hm & Hn & Hj & Hlen).
  exists rel, asset, j.
  unfold start_download.
  destruct (Z.ltb_spec (gRelease_value st) 0); [lia |].
  destruct (Z.leb_spec (gAssets_value st) 0); [lia |]. simpl orb. cbv iota.
  destruct (gAssetIndexMap (shown st)) as [|x tail] eqn:Hmap; [discriminate |].
  destruct (Z.leb_spec (Z.of_nat (length (x :: tail))) (gAssets_value st - 1)); [lia |].
  rewrite Hj. simpl default. rewrite Hrel.
  destruct (Z.ltb_spec j 0); [lia |]. rewrite Ha.
  assert (string_empty (dir +:+ String c "") = false) as Hpicked
    by (destruct dir; reflexivity).
  rewrite Hpicked, back_last.
  repeat (split; [first [reflexivity | assumption] |]).
  destruct (Ascii.eqb c backslash), (Ascii.eqb c fs.slash); reflexivity.
Qed.

Lemma start_download_takes_shown_asset_witness :
  exists rel asset j,
    app_gReleases sample_app !! Z.to_nat (gRelease_value sample_app) = Some rel /\
    assets rel !! Z.to_nat j = Some asset /\
    asset_matches (app_gFilters sample_app) asset = true /\
    gAssets (shown sample_app) !! Z.to_nat (gAssets_value sample_app - 1)
    = Some (name asset) /\
    start_download true ("C:\d" +:+ String "l" "") sample_app
    = launched (url asset)
        (("C:\d" +:+ String "l" "")
         +:+ (if Ascii.eqb "l" backslash || Ascii.eqb "l" fs.slash then ""
              else String backslash "")
         +:+ name asset)
        "Downloading (then extract)..." true.
Proof.
  apply (start_download_takes_shown_asset true "C:\d" "l" sample_app).
  - reflexivity.
  - simpl. lia.
  - vm_compute. split; discriminate.
Defined.

(** ** The end of a transfer and its ticks *)

(** X25. A transfer in which every chunk is stored whole, nothing fails and
    nobody cancels ends with [CURLE_OK].  When [download_file] has posted the
    end of the download, which is where it returns unless an extraction was
    asked for, the destination file holds exactly the bytes received, in
    order, and nothing of what it held before; an extraction that was asked
    for starts from there. *)
Theorem complete_transfer_stores_body
    (lib : path_library) (env : download_env) (url outPath : string) (g : globals) :
  curl_init_ok env = true ->
  fopen_ok env = true ->
  all_stored (transfer env) = true ->
  gCancel g = false ->
  never_cancelled (transfer env) = true ->
  exists g2,
    gLastCurlResult g2 = CURLE_OK /\
    files g2 !! outPath = Some (received (transfer env)) /\
    List.last (ui g2) (progress_value 0) = post_download_done CURLE_OK /\
    platform.download_file lib env url outPath g
    = if gDoExtract g then platform.extract_after_download lib env outPath g2 else g2.
Proof.
  intros Hinit Hopen Hall Hc Hnc. unfold platform.download_file.
  rewrite Hinit, Hopen. simpl negb. cbv iota.
  set (opened := set_files (<[outPath:=[]]> (files g)) g).
  assert (files opened !! outPath = Some []) as Hf
    by (subst opened; simpl; apply lookup_insert_eq).
  destruct (perform_complete outPath (transfer env) opened [] Hall Hc Hnc Hf)
    as [Hres Hfile].
  destruct (perform_keeps_extraction_state outPath (transfer env) opened) as [Hd _].
  destruct (curl_easy_perform outPath (transfer env) opened) as [res g1].
  simpl in Hres, Hfile, Hd. subst res.
  exists (post_download_done_now (set_gLastCurlResult CURLE_OK g1)).
  split; [reflexivity |]. split; [exact Hfile |].
  split; [unfold post_download_done_now; simpl; apply last_last |].
  simpl. rewrite Hd. reflexivity.
Qed.

Lemma complete_transfer_stores_body_witness :
  exists g2,
    gLastCurlResult g2 = CURLE_OK /\
    files g2 !! "C:\dl\pkg.7z" = Some (received (transfer complete_download)) /\
    List.last (ui g2) (progress_value 0) = post_download_done CURLE_OK /\
    platform.download_file windows_paths complete_download "https://example.org/pkg.7z"
      "C:\dl\pkg.7z" download_only_globals
    = if gDoExtract download_only_globals
      then platform.extract_after_download windows_paths complete_download
             "C:\dl\pkg.7z" g2
      else g2.
Proof.
  exact (complete_transfer_stores_body windows_paths complete_download
           "https://example.org/pkg.7z" "C:\dl\pkg.7z" download_only_globals
           eq_refl eq_refl eq_refl eq_refl eq_refl).
Defined.


